(** * pyatv.airplay: stream session, feature registry and protocol set-up

    A shallow embedding of [pyatv/airplay/__init__.py]: the classes
    [AirPlayFeatures] and [AirPlayStream] and the generator [setup], with the
    closures it yields.  Python objects that are mutated and shared (the
    device configuration, the stream object, the registries) live in an
    explicit [World]; coroutines and methods are computations in a
    state-and-exception monad over that world.  What the module imports from
    the rest of the package (connection, verification, player, web server,
    remote control channel, MRP factory) is bundled in a record of
    [Externals], over which every statement is quantified. *)

From stdpp Require Import base option list strings gmap.

Local Open Scope string_scope.
Local Open Scope Z_scope.
Local Open Scope list_scope.

(** ** Constants of [pyatv.const] and [pyatv.interface] used by the module *)

Inductive Protocol := AirPlay | MRP.

Inductive FeatureName := PlayUrl | OtherFeature (n : nat).

Inductive FeatureState := Available | Unavailable.

(** [FeatureInfo(state)] *)
Record FeatureInfo := mkFeatureInfo { state : FeatureState }.

(** [pyatv.auth.hap_pairing.AuthenticationType] *)
Inductive AuthenticationType := Null | Legacy | HAP | Transient.

#[global] Instance Protocol_eq_dec : EqDecision Protocol.
Proof. solve_decision. Defined.

#[global] Instance FeatureName_eq_dec : EqDecision FeatureName.
Proof. solve_decision. Defined.

#[global] Instance FeatureState_eq_dec : EqDecision FeatureState.
Proof. solve_decision. Defined.

#[global] Instance AuthenticationType_eq_dec : EqDecision AuthenticationType.
Proof. solve_decision. Defined.

#[global] Instance FeatureName_countable : Countable FeatureName.
Proof.
  refine (inj_countable'
            (fun f => match f with PlayUrl => 0%nat | OtherFeature n => S n end)
            (fun k => match k with O => PlayUrl | S n => OtherFeature n end) _).
  intros []; reflexivity.
Defined.

(** ** Exceptions

    The classes that can reach the module.  [except Exception] (line 204)
    catches the subclasses of [Exception] only: [KeyboardInterrupt],
    [SystemExit] and, from Python 3.8 on, [asyncio.CancelledError] derive
    from [BaseException] directly. *)

Inductive exn :=
  | NotSupportedError
  | AttributeError
  | AssertionError
  | NameError
  | TypeError
  | ValueError
  | ConnectionError
  | AuthenticationError
  | OtherException (code : nat)
  | CancelledError
  | KeyboardInterrupt
  | SystemExit.

#[global] Instance exn_eq_dec : EqDecision exn.
Proof. solve_decision. Defined.

(** [isinstance(e, Exception)] *)
Definition is_Exception (e : exn) : bool :=
  match e with
  | CancelledError | KeyboardInterrupt | SystemExit => false
  | _ => true
  end.

Inductive result (A : Type) :=
  | Ok (a : A)
  | Raise (e : exn).
Arguments Ok {A} a.
Arguments Raise {A} e.

(** ** Data model *)

(** [conf.AirPlayService] / [conf.MrpService]: identifier, port, discovered
    properties and an optional credential string. *)
Record Service := mkService {
  protocol : Protocol;
  identifier : option string;
  port : Z;
  properties : list (string * string);
  credentials : option string;
}.

(** [conf.MrpService(identifier, port)] *)
Definition MrpService (ident : option string) (p : Z) : Service :=
  {| protocol := MRP; identifier := ident; port := p;
     properties := []; credentials := None |}.

(** [conf.AppleTV], as far as the module reads and writes it. *)
Record AppleTV := mkAppleTV {
  address : string;
  name : string;
  services : list Service;
}.

(** [config.get_service(protocol)] *)
Definition get_service (config : AppleTV) (p : Protocol) : option Service :=
  List.find (fun s => bool_decide (protocol s = p)) (services config).

(** Modelled from the spec: [conf.AppleTV.add_service] is not part of the
    sources at hand; section 5 describes the reservation of the secondary
    service slot as "a one-time, non-idempotent append" to the shared
    configuration. *)
Definition add_service (config : AppleTV) (s : Service) : AppleTV :=
  {| address := address config; name := name config;
     services := services config ++ [s] |}.

(** Modelled from the spec: [HapCredentials] (section 3, AuthDescriptor) is an
    authentication kind plus key material. *)
Record HapCredentials := mkHapCredentials {
  type : AuthenticationType;
  key_material : string;
}.

(** Object identities handed out by the environment. *)
Definition Task := nat.
Definition HttpConnection := nat.

(** [StaticFileWebServer(file_path, address)] *)
Record StaticFileWebServer := mkStaticFileWebServer {
  file_path : string;
  bind_address : string;
}.

(** Values that can arrive in [**kwargs].  A finite float is given by its
    value, the fraction [num/den]; any other object by what [int()] makes of
    it, a value or the exception raised (a non-finite float, an object with
    or without [__int__], [__index__] or [__trunc__]). *)
Inductive PyValue :=
  | PyNone
  | PyBool (b : bool)
  | PyInt (z : Z)
  | PyStr (s : string)
  | PyFloat (num : Z) (den : positive)
  | PyObject (as_int : result Z).

(** Truth value of an [Optional[str]] ([None] and [""] are false). *)
Definition str_truthy (c : option string) : bool :=
  match c with
  | None => false
  | Some s => negb (bool_decide (s = ""))
  end.

(** Truth value of an optional instance of a class that defines neither
    [__bool__] nor [__len__]: only [None] is false. *)
Definition obj_truthy {A} (o : option A) : bool :=
  match o with
  | None => false
  | Some _ => true
  end.

(** ** [AirPlayFeatures] *)

Record AirPlayFeatures := mkAirPlayFeatures { features_service : Service }.

(** [AirPlayFeatures.get_feature], lines 56-62 *)
Definition get_feature (self : AirPlayFeatures) (feature_name : FeatureName)
  : FeatureInfo :=
  let has_credentials := credentials (features_service self) in
  if bool_decide (feature_name = PlayUrl) && str_truthy has_credentials
  then mkFeatureInfo Available
  else mkFeatureInfo Unavailable.

(** ** The world: shared mutable objects and the observable trace *)

(** [AirPlayStream] instance attributes.  [self.config] is a reference to the
    shared configuration, which is kept in the world. *)
Record AirPlayStream := mkAirPlayStream {
  service : option Service;
  _credentials : HapCredentials;
  _play_task : option Task;
}.

(** Calls into the collaborators, in the order they are made. *)
Inductive Event :=
  | EvServerStart (server : StaticFileWebServer)
  | EvServerClose (server : StaticFileWebServer)
  | EvHttpConnect (addr : string) (p : Z)
  | EvVerify (creds : HapCredentials) (connection : HttpConnection)
  | EvEnsureFuture (t : Task) (connection : HttpConnection) (url : string) (position : Z)
  | EvTaskCancel (t : Task)
  | EvConnectionClose (connection : HttpConnection)
  | EvControlStart (addr : string) (p : Z) (creds : HapCredentials)
  | EvLogException (ex : exn)
  | EvMrpCreate
  | EvMrpConnect
  | EvMrpClose
  | EvControlStop.

#[global] Instance HapCredentials_eq_dec : EqDecision HapCredentials.
Proof. solve_decision. Defined.

#[global] Instance StaticFileWebServer_eq_dec : EqDecision StaticFileWebServer.
Proof. solve_decision. Defined.

#[global] Instance Event_eq_dec : EqDecision Event.
Proof. solve_decision. Defined.

(** An entry of [interfaces[...]]: the instance registered for a protocol. *)
Inductive Registration :=
  | RegFeatures (instance : AirPlayFeatures) (p : Protocol)
  | RegStream (p : Protocol).

Record World := mkWorld {
  config : AppleTV;                 (* the shared [conf.AppleTV] object *)
  stream : option AirPlayStream;    (* the stream object, once constructed *)
  interfaces : list Registration;   (* what [setup] itself registers on the relayers *)
  tasks_created : nat;              (* next identity for [ensure_future] *)
  trace : list Event;
}.

Definition with_config (f : AppleTV -> AppleTV) (w : World) : World :=
  {| config := f (config w); stream := stream w; interfaces := interfaces w;
     tasks_created := tasks_created w; trace := trace w |}.

Definition with_stream (s : option AirPlayStream) (w : World) : World :=
  {| config := config w; stream := s; interfaces := interfaces w;
     tasks_created := tasks_created w; trace := trace w |}.

Definition with_event (e : Event) (w : World) : World :=
  {| config := config w; stream := stream w; interfaces := interfaces w;
     tasks_created := tasks_created w; trace := trace w ++ [e] |}.

Definition with_registration (r : Registration) (w : World) : World :=
  {| config := config w; stream := stream w; interfaces := interfaces w ++ [r];
     tasks_created := tasks_created w; trace := trace w |}.

Definition with_new_task (w : World) : World :=
  {| config := config w; stream := stream w; interfaces := interfaces w;
     tasks_created := S (tasks_created w); trace := trace w |}.

(** ** Computations: state passing with exceptions *)

Definition M (A : Type) : Type := World -> result A * World.

#[global] Instance M_ret : MRet M := fun A a w => (Ok a, w).

#[global] Instance M_bind : MBind M := fun A B f m w =>
  match m w with
  | (Ok a, w1) => f a w1
  | (Raise e, w1) => (Raise e, w1)
  end.

Definition raise {A} (e : exn) : M A := fun w => (Raise e, w).

Definition get_config : M AppleTV := fun w => (Ok (config w), w).

Definition modify_config (f : AppleTV -> AppleTV) : M unit :=
  fun w => (Ok tt, with_config f w).

Definition emit (e : Event) : M unit := fun w => (Ok tt, with_event e w).

Definition register (r : Registration) : M unit :=
  fun w => (Ok tt, with_registration r w).

(** Reading the variable that holds the stream object; a free variable read
    before its assignment is a [NameError]. *)
Definition get_stream : M AirPlayStream := fun w =>
  match stream w with
  | Some s => (Ok s, w)
  | None => (Raise NameError, w)
  end.

(** Binding the variable to a newly constructed object. *)
Definition bind_stream (s : AirPlayStream) : M unit :=
  fun w => (Ok tt, with_stream (Some s) w).

(** [self._play_task = v] *)
Definition set_play_task (v : option Task) : M unit := fun w =>
  match stream w with
  | Some s =>
      (Ok tt, with_stream (Some {| service := service s;
                                   _credentials := _credentials s;
                                   _play_task := v |}) w)
  | None => (Raise NameError, w)
  end.

(** Attribute access on an optional object: [None.attr] is an
    [AttributeError]. *)
Definition attr {A B} (o : option A) (f : A -> B) : M B :=
  match o with
  | Some a => mret (f a)
  | None => raise AttributeError
  end.

(** [try: body  finally: final], where [body] also hands over the local
    variables [final] reads.  An exception raised by [final] replaces the
    outcome of [body]. *)
Definition try_finally {L A} (body : World -> L * (result A * World))
    (final : L -> M unit) : M A := fun w =>
  let '(l, (r, w1)) := body w in
  match final l w1 with
  | (Ok _, w2) => (r, w2)
  | (Raise e, w2) => (Raise e, w2)
  end.

(** [try: body  except Exception as ex: handler(ex)  else: orelse] *)
Definition try_except_Exception_else {A} (body : M unit) (handler : exn -> M A)
    (orelse : M A) : M A := fun w =>
  match body w with
  | (Ok _, w1) => orelse w1
  | (Raise ex, w1) =>
      if is_Exception ex then handler ex w1 else (Raise ex, w1)
  end.

(** ** [AirPlayStream.close], lines 77-82 *)
Definition AirPlayStream_close : M unit :=
  self ← get_stream;
  match _play_task self with
  | Some t => emit (EvTaskCancel t);; set_play_task None
  | None => mret tt
  end.

(** ** Suspension points

    An [await] hands control to the event loop.  Until the awaited operation
    settles, other coroutines run; of what they can do, the model keeps the
    calls of the stream's [close()] (how a playback is cancelled from
    outside).  The operation then returns a value or raises, a cancellation
    of the awaiting task being the exception [CancelledError]. *)
Record Suspension (A : Type) := mkSuspension {
  closes_meanwhile : nat;
  outcome : result A;
}.
Arguments mkSuspension {A} _ _.
Arguments closes_meanwhile {A} _.
Arguments outcome {A} _.

Fixpoint interfere (n : nat) (w : World) : World :=
  match n with
  | O => w
  | S k => interfere k (snd (AirPlayStream_close w))
  end.

Definition await {A} (s : Suspension A) : M A :=
  fun w => (outcome s, interfere (closes_meanwhile s) w).

(** ** The collaborators

    Functions stand for the pure ones, a [Suspension] for each awaited call,
    a set of tasks for what the two [close]/[stop] calls return.  Credential
    parsing is total, as section 4.1 has it ("never an error"). *)
Record Externals := mkExternals {
  (* pyatv.auth.hap_pairing, pyatv.airplay.auth *)
  parse_credentials : option string -> HapCredentials;
  extract_credentials : Service -> HapCredentials;
  (* pyatv.airplay.remote_control *)
  is_supported : Service -> bool;
  control_start : string -> Z -> HapCredentials -> Suspension unit;
  control_stop : gset Task;
  (* pyatv.mrp.create_with_connection *)
  mrp_connect : Suspension unit;
  mrp_close : gset Task;
  mrp_features : gset FeatureName;
  (* os.path, pyatv.support.net *)
  path_exists : string -> bool;
  get_local_address_reaching : string -> string;
  (* pyatv.support.http *)
  server_start : StaticFileWebServer -> Suspension unit;
  file_address : StaticFileWebServer -> string;
  server_close : StaticFileWebServer -> Suspension unit;
  http_connect : string -> Z -> Suspension HttpConnection;
  (* pyatv.airplay.auth, pyatv.airplay.player *)
  verify_connection : HapCredentials -> HttpConnection -> Suspension unit;
  player_play_url : HttpConnection -> string -> Z -> Suspension unit;
  (* the builtin [int] on strings *)
  int_of_str : string -> option Z;
}.

(** [int(v)]; a float is truncated towards zero. *)
Definition py_int (ext : Externals) (v : PyValue) : result Z :=
  match v with
  | PyInt z => Ok z
  | PyBool b => Ok (if b then 1 else 0)
  | PyStr s => match int_of_str ext s with
               | Some z => Ok z
               | None => Raise ValueError
               end
  | PyNone => Raise TypeError
  | PyFloat num den => Ok (Z.quot num (Z.pos den))
  | PyObject as_int => as_int
  end.

Definition lift_result {A} (r : result A) : M A := fun w => (r, w).

(** A yielded tuple [(protocol, connect, close, features)]. *)
Record Descriptor := mkDescriptor {
  proto : Protocol;
  connect : M unit;
  close : M (gset Task);
  features : gset FeatureName;
}.

(** The states in which the generator object returned by [setup] can be
    found, with the local variables that are live there. *)
Inductive SetupGenerator :=
  | Created                          (* not started *)
  | AtPrimaryYield (svc : Service)   (* suspended at line 173 *)
  | AtSecondaryYield                 (* suspended at line 215 *)
  | Finished.

Section Program.
Context (ext : Externals).

(** *** [AirPlayStream.__init__], lines 68-75

    The new object becomes visible (here: is stored in the world) only
    when the constructor returns. *)
Definition AirPlayStream_init : M unit :=
  cfg ← get_config;
  let svc := get_service cfg AirPlay in
  blob ← attr svc credentials;
  let creds := parse_credentials ext blob in
  bind_stream {| service := svc; _credentials := creds; _play_task := None |}.

(** *** [AirPlayStream.play_url], lines 84-118 *)

(** Lines 94-101: serve a local file through a web server. *)
Definition play_url_prepare (url : string)
  : M (option StaticFileWebServer * string) :=
  if path_exists ext url then
    cfg ← get_config;
    let server_address := get_local_address_reaching ext (address cfg) in
    let server := mkStaticFileWebServer url server_address in
    emit (EvServerStart server);;
    await (server_start ext server);;
    mret (Some server, file_address ext server)
  else mret (None, url).

(** [asyncio.ensure_future(player.play_url(url, position))] *)
Definition ensure_future (connection : HttpConnection) (url : string)
    (position : Z) : M Task := fun w =>
  let t := tasks_created w in
  (Ok t, with_event (EvEnsureFuture t connection url position) (with_new_task w)).

(** Lines 109-112, once [connection] is bound. *)
Definition play_url_play (connection : HttpConnection)
    (url : string) (kwargs : gmap string PyValue) : M unit :=
  position ← lift_result (py_int ext (default (PyInt 0) (kwargs !! "position")));
  t ← ensure_future connection url position;
  set_play_task (Some t);;
  await (player_play_url ext connection url position).

(** Lines 105-112, the body of [try].  The first component of the result
    is the value of the local variable [connection] when the body is left. *)
Definition play_url_try (self : AirPlayStream) (url : string)
    (kwargs : gmap string PyValue)
  : World -> option HttpConnection * (result unit * World) := fun w =>
  match (cfg ← get_config;
         p ← attr (service self) port;
         emit (EvHttpConnect (address cfg) p);;
         await (http_connect ext (address cfg) p)) w with
  | (Raise e, w1) => (None, (Raise e, w1))
  | (Ok connection, w1) =>
      (Some connection,
       (emit (EvVerify (_credentials self) connection);;
        await (verify_connection ext (_credentials self) connection);;
        play_url_play connection url kwargs) w1)
  end.

(** Lines 113-118, the [finally] clause.  [connection] and [server] are
    instances of classes without [__bool__] or [__len__], so the two tests
    are tests against [None]; [connection.close()] is synchronous and has
    no failure in its interface (section 6), [server.close()] is awaited. *)
Definition play_url_finally (server : option StaticFileWebServer)
    (connection : option HttpConnection) : M unit :=
  set_play_task None;;
  match connection with
  | Some c => emit (EvConnectionClose c)
  | None => mret tt
  end;;
  match server with
  | Some s => emit (EvServerClose s);; await (server_close ext s)
  | None => mret tt
  end.

Definition play_url (url : string) (kwargs : gmap string PyValue) : M unit :=
  self ← get_stream;
  if negb (obj_truthy (service self)) then raise NotSupportedError
  else
    '(server, url) ← play_url_prepare url;
    try_finally (play_url_try self url kwargs) (play_url_finally server).

(** *** [setup], lines 138-215 *)

(** [_connect], lines 166-167 *)
Definition _connect : M unit := mret tt.

(** [_close], lines 169-171 *)
Definition _close : M (gset Task) :=
  AirPlayStream_close;;
  mret ∅.

(** [_connect_rc], lines 200-207.  [control_port] and [credentials] are
    the values captured at set-up; [config.address] is read at the call. *)
Definition _connect_rc (control_port : Z) (credentials : HapCredentials)
  : M unit :=
  try_except_Exception_else
    (cfg ← get_config;
     emit (EvControlStart (address cfg) control_port credentials);;
     await (control_start ext (address cfg) control_port credentials))
    (fun ex => emit (EvLogException ex))
    (emit EvMrpConnect;;
     await (mrp_connect ext)).

(** [_close_rc], lines 209-213 *)
Definition _close_rc : M (gset Task) :=
  let tasks : gset Task := ∅ in
  emit EvMrpClose;;
  let tasks := tasks ∪ mrp_close ext in
  emit EvControlStop;;
  let tasks := tasks ∪ control_stop ext in
  mret tasks.

(** Lines 155-173: from the call of [next] on a fresh generator to the
    first [yield]. *)
Definition setup_to_primary : M (Service * Descriptor) :=
  cfg ← get_config;
  match get_service cfg AirPlay with
  | None => raise AssertionError
  | Some svc =>
      AirPlayStream_init;;
      register (RegFeatures (mkAirPlayFeatures svc) AirPlay);;
      register (RegStream AirPlay);;
      mret (svc, {| proto := AirPlay; connect := _connect; close := _close;
                    features := {[PlayUrl]} |})
  end.

(** Lines 175-215: from the first [yield] to the second one, or to the end
    of the generator ([None]).  The two [debug] log lines are not traced;
    [mrp.create_with_connection] is a factory that returns the secondary
    protocol's connect, close and feature set (section 6), recorded as
    [EvMrpCreate].  What the factory does with the registry it is handed is
    its own and is not part of [interfaces]. *)
Definition setup_to_secondary (svc : Service) : M (option Descriptor) :=
  let credentials := extract_credentials ext svc in
  if negb (is_supported ext svc) then mret None
  else if negb (bool_decide (type credentials ∈ [HAP; Transient])) then mret None
  else
    let control_port := port svc in
    modify_config (fun cfg => add_service cfg (MrpService None 0));;
    emit EvMrpCreate;;
    mret (Some {| proto := MRP;
                  connect := _connect_rc control_port credentials;
                  close := _close_rc;
                  features := mrp_features ext |}).

(** [next(gen)]: [Ok (Some d)] is a yielded descriptor, [Ok None] is
    [StopIteration]; after an exception the generator is finished. *)
Definition setup_next (gen : SetupGenerator) (w : World)
  : result (option Descriptor) * SetupGenerator * World :=
  match gen with
  | Created =>
      match setup_to_primary w with
      | (Ok (svc, d), w1) => (Ok (Some d), AtPrimaryYield svc, w1)
      | (Raise e, w1) => (Raise e, Finished, w1)
      end
  | AtPrimaryYield svc =>
      match setup_to_secondary svc w with
      | (Ok (Some d), w1) => (Ok (Some d), AtSecondaryYield, w1)
      | (Ok None, w1) => (Ok None, Finished, w1)
      | (Raise e, w1) => (Raise e, Finished, w1)
      end
  | AtSecondaryYield => (Ok None, Finished, w)
  | Finished => (Ok None, Finished, w)
  end.

(** [list(gen)]: call [next] until [StopIteration].  [None] when the fuel
    runs out first. *)
Fixpoint collect (fuel : nat) (gen : SetupGenerator) (w : World)
  : option (result (list Descriptor) * World) :=
  match fuel with
  | O => None
  | S fuel' =>
      match setup_next gen w with
      | (Raise e, _, w1) => Some (Raise e, w1)
      | (Ok None, _, w1) => Some (Ok [], w1)
      | (Ok (Some d), gen1, w1) =>
          match collect fuel' gen1 w1 with
          | Some (Ok ds, w2) => Some (Ok (d :: ds), w2)
          | Some (Raise e, w2) => Some (Raise e, w2)
          | None => None
          end
      end
  end.

(** [list(setup(loop, config, interfaces, device_listener, session_manager))] *)
Definition setup_all (fuel : nat) (w : World)
  : option (result (list Descriptor) * World) :=
  collect fuel Created w.

End Program.

(** ** The eligibility table of the specification

    Section 4.6 and section 8 describe the bridge decision as a function of
    the capability flag and the authentication kind: true for a supported
    device with a persistent (HAP) or transient pairing, false otherwise.
    This definition follows those words; [setup_to_secondary] follows the
    code. *)
Definition bridge_eligible (supported : bool) (kind : AuthenticationType)
  : bool :=
  match supported, kind with
  | true, HAP => true
  | true, Transient => true
  | _, _ => false
  end.

(** Whether resuming the generator after the primary descriptor yields a
    secondary one. *)
Definition yields_secondary (ext : Externals) (svc : Service) (w : World)
  : bool :=
  match setup_next ext (AtPrimaryYield svc) w with
  | (Ok (Some _), _, _) => true
  | _ => false
  end.

(** The descriptors as [setup] builds them. *)
Definition primary_descriptor : Descriptor :=
  {| proto := AirPlay; connect := _connect; close := _close;
     features := {[PlayUrl]} |}.

Definition secondary_descriptor (ext : Externals) (svc : Service) : Descriptor :=
  {| proto := MRP;
     connect := _connect_rc ext (port svc) (extract_credentials ext svc);
     close := _close_rc ext;
     features := mrp_features ext |}.

(** The slot [_play_task] of the stream object in a world. *)
Definition play_task_slot (w : World) : option (option Task) :=
  _play_task <$> stream w.

(** What [close()] calls from other coroutines leave behind: nothing when no
    task is tracked, otherwise one cancellation and an empty slot. *)
Definition cancelled (w : World) : World :=
  match stream w with
  | Some s =>
      match _play_task s with
      | Some t =>
          with_stream (Some {| service := service s;
                               _credentials := _credentials s;
                               _play_task := None |})
                      (with_event (EvTaskCancel t) w)
      | None => w
      end
  | None => w
  end.


(** A trace segment made of task cancellations only. *)
Definition cancellations (evs : list Event) : Prop :=
  forall e, e ∈ evs -> exists t, e = EvTaskCancel t.


(** What a computation can do to the world.

    [evolves P w w']: the configuration is untouched, the stream object (if
    bound) is the same object with the same service and credentials, and
    the trace has grown by events that all satisfy [P]. *)

Definition evolves (P : Event -> Prop) (w w' : World) : Prop :=
  config w' = config w /\
  (forall s, stream w = Some s ->
             exists v, stream w' = Some {| service := service s;
                                           _credentials := _credentials s;
                                           _play_task := v |}) /\
  exists evs, trace w' = trace w ++ evs /\ Forall P evs.

Definition tracks (P : Event -> Prop) {A} (m : M A) : Prop :=
  forall w, evolves P w (snd (m w)).


(** ** Concrete inputs used to exercise the statements *)

Definition example_credentials : HapCredentials :=
  {| type := HAP; key_material := "ltsk" |}.

(** A device on which everything succeeds, except for the outcomes given as
    arguments; ["/media/clip.mp4"] is the one local file. *)
Definition example_externals (start mrp verify : result unit)
    (play : Suspension unit) : Externals :=
  {| parse_credentials := fun _ => example_credentials;
     extract_credentials := fun _ => example_credentials;
     is_supported := fun _ => true;
     control_start := fun _ _ _ => mkSuspension 0 start;
     control_stop := {[ 21%nat ]};
     mrp_connect := mkSuspension 0 mrp;
     mrp_close := {[ 22%nat ]};
     mrp_features := {[ OtherFeature 1 ]};
     path_exists := fun u => bool_decide (u = "/media/clip.mp4");
     get_local_address_reaching := fun _ => "10.0.0.1";
     server_start := fun _ => mkSuspension 0 (Ok tt);
     file_address := fun _ => "http://10.0.0.1:8000/clip.mp4";
     server_close := fun _ => mkSuspension 0 (Ok tt);
     http_connect := fun _ _ => mkSuspension 0 (Ok 5%nat);
     verify_connection := fun _ _ => mkSuspension 0 verify;
     player_play_url := fun _ _ _ => play;
     int_of_str := fun _ => None |}.

Definition example_service : Service :=
  {| protocol := AirPlay; identifier := Some "AA:BB:CC:DD:EE:FF"; port := 7000;
     properties := []; credentials := Some "1:2:3:4" |}.

Definition example_config : AppleTV :=
  {| address := "10.0.0.2"; name := "Living room"; services := [example_service] |}.

(** A configuration without an AirPlay service. *)
Definition example_config_mrp_only : AppleTV :=
  {| address := "10.0.0.2"; name := "Living room";
     services := [MrpService (Some "mrp-id") 49152] |}.

Definition example_world (cfg : AppleTV) : World :=
  {| config := cfg; stream := None; interfaces := []; tasks_created := 0;
     trace := [] |}.

(** The world once the stream object has been constructed for
    [example_config]. *)
Definition example_stream_world : World :=
  {| config := example_config;
     stream := Some {| service := Some example_service;
                       _credentials := example_credentials;
                       _play_task := None |};
     interfaces := []; tasks_created := 0; trace := [] |}.

(** ** Driving the generator by hand *)

(** [n] calls of [next], results dropped. *)
Fixpoint setup_next_n (ext : Externals) (n : nat) (gen : SetupGenerator)
    (w : World) : SetupGenerator * World :=
  match n with
  | O => (gen, w)
  | S k =>
      let '(_, gen1, w1) := setup_next ext gen w in
      setup_next_n ext k gen1 w1
  end.

(** ** What one [play_url] call amounts to

    For a call that no [close()] disturbs before the player has started, the
    outcome, the calls made and the number of tasks created are read off the
    outcomes of the awaited operations: the first failing step ends the
    [try] body, and the [finally] clause appends the two releases. *)

(** Lines 109-112 for connection [c]; [t] is the identity of the task. *)
Definition play_url_play_summary (ext : Externals)
    (kwargs : gmap string PyValue) (url : string) (c : HttpConnection)
    (t : Task) : result unit * list Event * nat :=
  match py_int ext (default (PyInt 0) (kwargs !! "position")) with
  | Raise e => (Raise e, [], 0%nat)
  | Ok p =>
      (outcome (player_play_url ext c url p),
       EvEnsureFuture t c url p
         :: match closes_meanwhile (player_play_url ext c url p) with
            | O => []
            | S _ => [EvTaskCancel t]
            end,
       1%nat)
  end.

(** Lines 103-116: the [try] body and the release of the connection. *)
Definition play_url_try_summary (ext : Externals)
    (kwargs : gmap string PyValue) (creds : HapCredentials) (addr : string)
    (p : Z) (url : string) (t : Task) : result unit * list Event * nat :=
  match outcome (http_connect ext addr p) with
  | Raise e => (Raise e, [EvHttpConnect addr p], 0%nat)
  | Ok c =>
      match outcome (verify_connection ext creds c) with
      | Raise e =>
          (Raise e, [EvHttpConnect addr p; EvVerify creds c; EvConnectionClose c],
           0%nat)
      | Ok _ =>
          let '(r, evs, n) := play_url_play_summary ext kwargs url c t in
          (r,
           [EvHttpConnect addr p; EvVerify creds c] ++ evs ++ [EvConnectionClose c],
           n)
      end
  end.

(** The whole call past the guard. *)
Definition play_url_summary (ext : Externals) (kwargs : gmap string PyValue)
    (creds : HapCredentials) (addr : string) (p : Z) (url : string) (t : Task)
  : result unit * list Event * nat :=
  if path_exists ext url then
    let server := mkStaticFileWebServer url (get_local_address_reaching ext addr) in
    match outcome (server_start ext server) with
    | Raise e => (Raise e, [EvServerStart server], 0%nat)
    | Ok _ =>
        let '(r, evs, n) :=
          play_url_try_summary ext kwargs creds addr p (file_address ext server) t in
        (match outcome (server_close ext server) with
         | Raise e => Raise e
         | Ok _ => r
         end,
         EvServerStart server :: evs ++ [EvServerClose server],
         n)
    end
  else play_url_try_summary ext kwargs creds addr p url t.

(** Whether the call gets as far as the [try] statement. *)
Definition enters_try (ext : Externals) (addr : string) (url : string) : bool :=
  if path_exists ext url then
    match outcome (server_start ext
                     (mkStaticFileWebServer url (get_local_address_reaching ext addr))) with
    | Ok _ => true
    | Raise _ => false
    end
  else true.

(** No [close()] call arrives while the operations of a [play_url] call are
    awaited. *)
Definition undisturbed (ext : Externals) : Prop :=
  (forall s, closes_meanwhile (server_start ext s) = 0%nat) /\
  (forall a p, closes_meanwhile (http_connect ext a p) = 0%nat) /\
  (forall cr c, closes_meanwhile (verify_connection ext cr c) = 0%nat) /\
  (forall c u p, closes_meanwhile (player_play_url ext c u p) = 0%nat).

(** The world a [play_url] call leaves: [n] tasks more, [evs] appended, the
    stream object with slot [slot]. *)
Definition after_play_url (w : World) (self : AirPlayStream)
    (slot : option Task) (evs : list Event) (n : nat) : World :=
  {| config := config w;
     stream := Some {| service := service self;
                       _credentials := _credentials self;
                       _play_task := slot |};
     interfaces := interfaces w;
     tasks_created := n + tasks_created w;
     trace := trace w ++ evs |}.

(** A second device for the examples: playback is cancelled through one
    [close()] call while the player runs, other [close()] calls arrive while
    the connection is made and verified, and closing the web server fails. *)
Definition example_externals_busy : Externals :=
  {| parse_credentials := fun _ => example_credentials;
     extract_credentials := fun _ => example_credentials;
     is_supported := fun _ => true;
     control_start := fun _ _ _ => mkSuspension 2 (Ok tt);
     control_stop := {[ 21%nat ]};
     mrp_connect := mkSuspension 1 (Ok tt);
     mrp_close := {[ 22%nat ]};
     mrp_features := {[ OtherFeature 1 ]};
     path_exists := fun u => bool_decide (u = "/media/clip.mp4");
     get_local_address_reaching := fun _ => "10.0.0.1";
     server_start := fun _ => mkSuspension 1 (Ok tt);
     file_address := fun _ => "http://10.0.0.1:8000/clip.mp4";
     server_close := fun _ => mkSuspension 3 (Raise (OtherException 7));
     http_connect := fun _ _ => mkSuspension 2 (Ok 5%nat);
     verify_connection := fun _ _ => mkSuspension 1 (Ok tt);
     player_play_url := fun _ _ _ => mkSuspension 1 (Raise CancelledError);
     int_of_str := fun _ => None |}.

(** The world of [example_stream_world] while an earlier task, 9, is still
    tracked. *)
Definition example_tracking_world : World :=
  {| config := example_config;
     stream := Some {| service := Some example_service;
                       _credentials := example_credentials;
                       _play_task := Some 9%nat |};
     interfaces := []; tasks_created := 10; trace := [] |}.

(** Classifying events. *)
Definition is_http_connect (e : Event) : bool :=
  match e with EvHttpConnect _ _ => true | _ => false end.

Definition is_connection_close (e : Event) : bool :=
  match e with EvConnectionClose _ => true | _ => false end.

Definition is_server_start (e : Event) : bool :=
  match e with EvServerStart _ => true | _ => false end.

Definition is_server_close (e : Event) : bool :=
  match e with EvServerClose _ => true | _ => false end.

Definition is_ensure_future (e : Event) : bool :=
  match e with EvEnsureFuture _ _ _ _ => true | _ => false end.

(** How often an event of a kind occurs. *)
Definition occurrences (kind : Event -> bool) (evs : list Event) : nat :=
  length (List.filter kind evs).

(** A device on which the local web server cannot be started. *)
Definition example_externals_no_server : Externals :=
  {| parse_credentials := fun _ => example_credentials;
     extract_credentials := fun _ => example_credentials;
     is_supported := fun _ => true;
     control_start := fun _ _ _ => mkSuspension 0 (Ok tt);
     control_stop := ∅;
     mrp_connect := mkSuspension 0 (Ok tt);
     mrp_close := ∅;
     mrp_features := ∅;
     path_exists := fun _ => true;
     get_local_address_reaching := fun _ => "10.0.0.1";
     server_start := fun _ => mkSuspension 0 (Raise (OtherException 98));
     file_address := fun _ => "http://10.0.0.1:8000/clip.mp4";
     server_close := fun _ => mkSuspension 0 (Ok tt);
     http_connect := fun _ _ => mkSuspension 0 (Ok 5%nat);
     verify_connection := fun _ _ => mkSuspension 0 (Ok tt);
     player_play_url := fun _ _ _ => mkSuspension 0 (Ok tt);
     int_of_str := fun _ => None |}.

(** The address the player is given: that of the web server for a local
    file, the url itself otherwise (lines 96-101). *)
Definition played_url (ext : Externals) (addr : string) (url : string) : string :=
  if path_exists ext url then
    file_address ext
      (mkStaticFileWebServer url (get_local_address_reaching ext addr))
  else url.

(** A stream object without a service, on a configuration without an
    AirPlay service, with a task in the slot. *)
Definition example_unserviced_world : World :=
  {| config := example_config_mrp_only;
     stream := Some {| service := None;
                       _credentials := example_credentials;
                       _play_task := Some 3%nat |};
     interfaces := []; tasks_created := 4; trace := [] |}.

(** * scripts/release.py

    The release helper works on two text files, [pyatv/const.py] and
    [CHANGES.rst], and on the output of shell commands.  The files are a map
    from path to content; what the host provides (command output, the date,
    the regular-expression engine, version parsing, the environment) is a
    record of functions, over which every statement is quantified. *)

Module Release.

(** How a function of the script can end other than by returning. *)
Inductive failure :=
  | SystemExit (code : Z)
  | IndexError
  | FileNotFoundError
  | CalledProcessError
  | OSError
  | NotImplementedError.

Inductive outcome (A : Type) :=
  | Return (a : A)
  | Throw (f : failure).
Arguments Return {A} a.
Arguments Throw {A} f.

(** ** Strings as Python has them *)

Infix "+++" := String.append (right associativity, at level 60).

(** The characters line feed, double quote and full stop. *)
Definition LF : Ascii.ascii := Ascii.ascii_of_nat 10.
Definition DQUOTE : Ascii.ascii := Ascii.ascii_of_nat 34.
Definition DOT : Ascii.ascii := Ascii.ascii_of_nat 46.

Definition nl : string := String LF EmptyString.
Definition dq : string := String DQUOTE EmptyString.

(** [s.split(sep)] for a separator of one character. *)
Fixpoint split (sep : Ascii.ascii) (s : string) : list string :=
  match s with
  | EmptyString => [EmptyString]
  | String c rest =>
      if Ascii.eqb c sep then EmptyString :: split sep rest
      else match split sep rest with
           | [] => [String c EmptyString]
           | first :: others => String c first :: others
           end
  end.

(** [sep.join(parts)] *)
Definition join (sep : string) (parts : list string) : string :=
  String.concat sep parts.

(** [s.startswith(prefix)] *)
Definition startswith (s prefix : string) : bool := String.prefix prefix s.

(** [needle in hay] *)
Fixpoint contains (needle hay : string) : bool :=
  String.prefix needle hay
  || match hay with
     | EmptyString => false
     | String _ rest => contains needle rest
     end.

(** [s * n] *)
Fixpoint times (s : string) (n : nat) : string :=
  match n with
  | O => EmptyString
  | S k => s +++ times s k
  end.

(** [CHANGES_TEMPLATE.format(version=..., separators=...)], lines 17-31 *)
Definition CHANGES_TEMPLATE (version separators : string) : string :=
  "CHANGES" +++ nl +++
  "=======" +++ nl +++
  nl +++
  version +++ nl +++
  separators +++ nl +++
  nl +++
  "Changes:" +++ nl +++
  nl +++
  "REMOVE ME" +++ nl +++
  nl +++
  "Notes:" +++ nl +++
  nl +++
  "REMOVE ME" +++ nl +++
  nl.

(** [c not in s] *)
Fixpoint free_of (c : Ascii.ascii) (s : string) : bool :=
  match s with
  | EmptyString => true
  | String c' rest => negb (Ascii.eqb c' c) && free_of c rest
  end.

(** ** The host and the state of a run *)

(** [verify_dist], lines 57-68, works on the listing of [dist/]: it unlinks
    every entry, then ends with the directory empty, or bails because
    something is left, or fails in [os.unlink].  The entries of [dist/] are
    not among the files kept in [Env], which holds the two text files the
    script reads and writes itself; what [verify_dist] and the shell
    commands do to the file system is the host's and is not stated here. *)
Inductive DistEnd := DistEmpty | DistNotEmpty | DistUnlinkFails.

Record Host := mkHost {
  shell : string -> option string;   (* stdout, [None] for a non-zero exit *)
  today : string;                    (* [datetime.now().strftime("%Y-%m-%d")] *)
  re_sub : string -> string -> string -> string;      (* [re.sub] *)
  normalize : string -> option string;  (* [str(Version(s))], [None]: InvalidVersion *)
  is_prerelease : string -> bool;    (* [Version(s).is_prerelease] *)
  path_exists : string -> bool;      (* [os.path.exists] *)
  getenv : string -> option string;  (* [os.getenv] *)
  verify_dist : DistEnd;             (* how [verify_dist] ends *)
}.

Record Env := mkEnv {
  files : gmap string string;              (* the text files the script reads
                                              and writes itself, by path *)
  commands : list string;                  (* shell commands run, in order *)
  errors : list (string * list string);    (* what [bail] logged *)
}.

Definition Script (A : Type) : Type := Env -> outcome A * Env.

#[global] Instance Script_ret : MRet Script := fun A a env => (Return a, env).

#[global] Instance Script_bind : MBind Script := fun A B f m env =>
  match m env with
  | (Return a, env1) => f a env1
  | (Throw x, env1) => (Throw x, env1)
  end.

Definition throw {A} (x : failure) : Script A := fun env => (Throw x, env).

(** [Path(path).read_text()] *)
Definition read_text (path : string) : Script string := fun env =>
  match files env !! path with
  | Some text => (Return text, env)
  | None => (Throw FileNotFoundError, env)
  end.

(** [open(path, "w")] and what is written before the file is closed. *)
Definition write_text (path : string) (text : string) : Script unit := fun env =>
  (Return tt, {| files := <[path := text]> (files env);
                 commands := commands env; errors := errors env |}).

(** [items[i]] *)
Definition item {A} (items : list A) (i : nat) : Script A :=
  match items !! i with
  | Some a => mret a
  | None => throw IndexError
  end.

(** [bail], lines 34-37: log the message, exit with status 1. *)
Definition bail {A} (message : string) (args : list string) : Script A :=
  fun env =>
    (Throw (SystemExit 1),
     {| files := files env; commands := commands env;
        errors := errors env ++ [(message, args)] |}).

Section Scripts.
Context (host : Host).

(** [call], lines 49-54, for a command line already formatted;
    [check=True] turns a non-zero exit into [CalledProcessError]. *)
Definition call (cmd : string) : Script string := fun env =>
  let env1 := {| files := files env; commands := commands env ++ [cmd];
                 errors := errors env |} in
  match shell host cmd with
  | Some out => (Return out, env1)
  | None => (Throw CalledProcessError, env1)
  end.

(** [sanity_check], lines 40-46 *)
Definition sanity_check : Script unit :=
  (if negb (path_exists host "setup.py")
   then bail "You must run this script from repo root" []
   else mret tt);;
  (if negb (str_truthy (getenv host "VIRTUAL_ENV"))
   then bail "Please run from a virtual environment" []
   else mret tt).

(** [install_dependencies], lines 71-75 *)
Definition install_dependencies : Script unit :=
  call ("pip3 install " +++ "wheel");;
  call ("pip3 install " +++ "twine");;
  mret tt.

(** The loop of [update_version], lines 86-90, over the components that
    are left. *)
Fixpoint update_components (splitted : list string)
    (components : list (nat * string)) (output : string) : Script string :=
  match components with
  | [] => mret output
  | (i, component) :: others =>
      value ← item splitted i;
      update_components splitted others
        (re_sub host ("(" +++ component +++ "_VERSION =).*")
           ("\1 '" +++ value +++ "'") output)
  end.

(** [update_version], lines 78-93.  The import of [pyatv.const] and the two
    log lines do not touch the files; [re.sub] is the host's. *)
Definition update_version (version : string) : Script unit :=
  output ← read_text "pyatv/const.py";
  let splitted := split DOT version in
  output ← update_components splitted
             [(0%nat, "MAJOR"); (1%nat, "MINOR"); (2%nat, "PATCH")] output;
  write_text "pyatv/const.py" output.

(** [generate_outputs], lines 96-99 *)
Definition generate_outputs : Script unit :=
  call "python3 setup.py sdist bdist_wheel";;
  mret tt.

(** [insert_changes], lines 102-117 *)
Definition insert_changes (version : string) : Script unit :=
  text ← read_text "CHANGES.rst";
  let changes := split LF text in
  line ← item changes 3;
  if startswith line version then mret tt
  else
    let version_str := version +++ " (" +++ today host +++ ")" in
    write_text "CHANGES.rst"
      (CHANGES_TEMPLATE version_str (times "=" (String.length version_str))
       +++ join nl (drop 3 changes)).

(** [verify_changes], lines 120-129 *)
Definition verify_changes (version : string) : Script unit :=
  changes ← read_text "CHANGES.rst";
  (if negb (contains version changes)
   then bail "Version {0} not in CHANGES.rst" [version]
   else mret tt);;
  (if contains "REMOVE ME" changes
   then bail "CHANGES.rst contains bad content!" []
   else mret tt).

(** The loop of [verify_and_create_commit], lines 145-147 *)
Fixpoint check_expected_files (expected : list string) (content : string)
  : Script unit :=
  match expected with
  | [] => mret tt
  | filename :: others =>
      (if negb (contains ("+++ b/" +++ filename) content)
       then bail "Missing file {0} in commit" [filename]
       else mret tt);;
      check_expected_files others content
  end.

(** [verify_and_create_commit], lines 132-147 *)
Definition verify_and_create_commit (version : string) : Script unit :=
  log ← call "git --no-pager log -10";
  (if contains version log
   then bail "A release commit already seems to exist!" []
   else mret tt);;
  status ← call "git status";
  (if negb (contains "Changes to be committed:" status)
   then bail "No files staged for commit! Add files first." []
   else mret tt);;
  call ("git commit -m " +++ dq +++ "Release " +++ version +++ dq);;
  let expected_files := ["CHANGES.rst"; "pyatv/const.py"] in
  content ← call "git --no-pager show";
  check_expected_files expected_files content.

(** [create_tag], lines 150-155, on the version as given. *)
Definition create_tag (version : string) : Script unit :=
  if is_prerelease host version then mret tt
  else throw NotImplementedError.

(** What the command line holds: the positional version and which options
    are present. *)
Record CommandLine := mkCommandLine {
  given_version : string;
  given_skip_dependencies : bool;
  given_skip_update_version : bool;
  given_skip_changes : bool;
  given_skip_verify_changes : bool;
  given_skip_commit : bool;
  given_skip_outputs : bool;
  given_skip_tag : bool;
  given_p : bool;
  given_m : bool;
}.

(** The namespace [parse_args] returns. *)
Record Args := mkArgs {
  version : string;
  skip_dependencies : bool;
  skip_update_version : bool;
  skip_changes : bool;
  skip_verify_changes : bool;
  skip_commit : bool;
  skip_outputs : bool;
  skip_tag : bool;
  prepare_release : bool;
  make_release : bool;
}.

(** A [store_true] option: [True] when present, its default otherwise. *)
Definition store_true (default given : bool) : bool :=
  if given then true else default.

(** The parser of lines 163-195.  [-p] and [-m] form a required, mutually
    exclusive group: with both or neither the parser exits with status 2. *)
Definition parse_args (cl : CommandLine) : Script Args :=
  if given_p cl && given_m cl then throw (SystemExit 2)
  else if negb (given_p cl || given_m cl) then throw (SystemExit 2)
  else
    mret {| version := given_version cl;
            skip_dependencies := store_true false (given_skip_dependencies cl);
            skip_update_version := store_true false (given_skip_update_version cl);
            skip_changes := store_true false (given_skip_changes cl);
            skip_verify_changes := store_true false (given_skip_verify_changes cl);
            skip_commit := store_true false (given_skip_commit cl);
            skip_outputs := store_true false (given_skip_outputs cl);
            skip_tag := store_true true (given_skip_tag cl);
            prepare_release := store_true false (given_p cl);
            make_release := store_true false (given_m cl) |}.

Definition unless (skip : bool) (step : Script unit) : Script unit :=
  if negb skip then step else mret tt.

(** [verify_dist], by its outcome. *)
Definition verify_dist_step : Script unit :=
  match verify_dist host with
  | DistEmpty => mret tt
  | DistNotEmpty => bail "The dist directory must be empty!" []
  | DistUnlinkFails => throw OSError
  end.

(** [main], lines 158-229; the value is the exit status handed to
    [sys.exit]. *)
Definition main (cl : CommandLine) : Script Z :=
  args ← parse_args cl;
  let given := version args in
  match normalize host given with
  | None => mret 1
  | Some version =>
      sanity_check;;
      (if prepare_release args then
         unless (skip_dependencies args) install_dependencies;;
         unless (skip_update_version args) (update_version version);;
         unless (skip_changes args) (insert_changes version)
       else if make_release args then
         unless (skip_verify_changes args) (verify_changes version);;
         unless (skip_commit args) (verify_and_create_commit version);;
         unless (skip_outputs args) (verify_dist_step;; generate_outputs);;
         unless (skip_tag args) (create_tag given)
       else mret tt);;
      mret 0
  end.

End Scripts.

(** The command line of the release commit, line 141. *)
Definition commit_command (version : string) : string :=
  "git commit -m " +++ dq +++ "Release " +++ version +++ dq.

(** The command lines of the release steps, lines 134, 137, 141, 144
    and 99. *)
Definition release_commands (version : string) : list string :=
  ["git --no-pager log -10"; "git status"; commit_command version;
   "git --no-pager show"; "python3 setup.py sdist bdist_wheel"].

(** Conditions on a step of the script: the commands it runs are among
    [allowed]; it runs none; it does not end in [NotImplementedError]. *)
Definition runs_only (allowed : list string) {A} (m : Script A) : Prop :=
  forall env, exists new,
    commands (snd (m env)) = commands env ++ new /\
    (forall cmd, cmd ∈ new -> cmd ∈ allowed).

Definition keeps_commands {A} (m : Script A) : Prop :=
  forall env, commands (snd (m env)) = commands env.

Definition never_unimplemented {A} (m : Script A) : Prop :=
  forall env, fst (m env) <> Throw NotImplementedError.

(** A changelog and a host for the examples. *)
Definition example_changes : string :=
  "CHANGES" +++ nl +++ "=======" +++ nl +++ nl +++
  "0.7.0 (2020-01-01)" +++ nl +++ "==================" +++ nl +++ nl +++
  "Changes:" +++ nl +++ nl +++ "* something" +++ nl.

Definition example_host : Host :=
  {| shell := fun cmd =>
       if String.eqb cmd "git --no-pager log -10" then Some "Release 0.7.0"
       else if String.eqb cmd "git status" then Some "Changes to be committed:"
       else if String.eqb cmd "git --no-pager show" then Some "+++ b/CHANGES.rst"
       else Some "";
     today := "2021-02-03";
     re_sub := fun _ _ text => text;
     normalize := fun s => if String.eqb s "bad" then None else Some s;
     is_prerelease := fun _ => false;
     path_exists := fun _ => true;
     getenv := fun _ => Some "/venv";
     verify_dist := DistEmpty |}.

Definition example_env : Env :=
  {| files := {[ "CHANGES.rst" := example_changes;
                 "pyatv/const.py" := "MAJOR_VERSION = '0'" ]};
     commands := []; errors := [] |}.

End Release.
(** * Properties *)

(** ** Basic facts about the monad and about suspension points *)

Ltac run :=
  repeat (cbn [mbind mret M_bind M_ret raise emit get_config get_stream
               modify_config register bind_stream set_play_task lift_result
               attr fst snd
               config stream interfaces tasks_created trace
               with_config with_stream with_event with_registration
               with_new_task service _credentials _play_task] in *;
          unfold mbind, mret, M_bind, M_ret, raise, emit, get_config,
                 modify_config, register, bind_stream, lift_result,
                 get_stream, set_play_task in *).

Lemma close_without_task (w : World) :
  (forall s, stream w = Some s -> _play_task s = None) ->
  snd (AirPlayStream_close w) = w.
Proof.
  intros H. unfold AirPlayStream_close, mbind, M_bind, get_stream.
  destruct (stream w) as [s|] eqn:Hs; cbn; [|reflexivity].
  rewrite (H s eq_refl). reflexivity.
Qed.

Lemma interfere_without_task (n : nat) (w : World) :
  (forall s, stream w = Some s -> _play_task s = None) ->
  interfere n w = w.
Proof.
  intros H. induction n as [|n IH]; cbn; [reflexivity|].
  rewrite close_without_task by exact H. exact IH.
Qed.

Lemma interfere_cases (n : nat) (w : World) :
  interfere n w = w \/ interfere n w = cancelled w.
Proof.
  destruct n as [|n]; [left; reflexivity|].
  destruct (stream w) as [s|] eqn:Hs.
  - destruct (_play_task s) as [t|] eqn:Ht.
    + right. cbn [interfere].
      assert (Hc : snd (AirPlayStream_close w) = cancelled w).
      { unfold AirPlayStream_close, cancelled, mbind, M_bind, get_stream,
          emit, set_play_task.
        rewrite Hs. cbn. rewrite Ht. cbn. rewrite Hs. reflexivity. }
      rewrite Hc. apply interfere_without_task.
      unfold cancelled. rewrite Hs, Ht. cbn. intros s' [= <-]. reflexivity.
    + left. apply interfere_without_task. intros s' Hs'. congruence.
  - left. apply interfere_without_task. intros s' Hs'. congruence.
Qed.

Lemma cancelled_config (w : World) : config (cancelled w) = config w.
Proof. unfold cancelled. destruct (stream w) as [[? ? [t|]]|]; reflexivity. Qed.

Lemma cancelled_trace (w : World) :
  exists evs, trace (cancelled w) = trace w ++ evs /\
              forall e, e ∈ evs -> exists t, e = EvTaskCancel t.
Proof.
  unfold cancelled. destruct (stream w) as [[? ? [t|]]|]; cbn.
  2-3: exists []; rewrite app_nil_r; split; [reflexivity | intros e He; inversion He].
  exists [EvTaskCancel t]. split; [reflexivity|].
  intros e He. apply list_elem_of_singleton in He. eauto.
Qed.

Lemma cancelled_slot (w : World) (s : AirPlayStream) :
  stream w = Some s ->
  stream (cancelled w) = Some {| service := service s;
                                 _credentials := _credentials s;
                                 _play_task := None |}.
Proof.
  intros Hs. unfold cancelled. rewrite Hs.
  destruct s as [sv cr [t|]]; cbn; [reflexivity | exact Hs].
Qed.

Lemma interfere_config (n : nat) (w : World) : config (interfere n w) = config w.
Proof.
  destruct (interfere_cases n w) as [-> | ->]; [reflexivity | apply cancelled_config].
Qed.

Lemma interfere_trace (n : nat) (w : World) :
  exists evs, trace (interfere n w) = trace w ++ evs /\
              forall e, e ∈ evs -> exists t, e = EvTaskCancel t.
Proof.
  destruct (interfere_cases n w) as [-> | ->]; [|apply cancelled_trace].
  exists []. rewrite app_nil_r. split; [reflexivity | intros e He; inversion He].
Qed.

(** The stream object keeps its service and credentials, and an empty slot
    stays empty, whatever happens at a suspension point. *)
Lemma interfere_stream (n : nat) (w : World) (s : AirPlayStream) :
  stream w = Some s ->
  exists v, stream (interfere n w)
            = Some {| service := service s; _credentials := _credentials s;
                      _play_task := v |} /\
            (_play_task s = None -> v = None).
Proof.
  intros Hs. destruct (interfere_cases n w) as [-> | ->].
  - exists (_play_task s). destruct s; cbn. split; [exact Hs | tauto].
  - exists None. split; [apply cancelled_slot, Hs | reflexivity].
Qed.
(** C5. For every AirPlay service, [get_feature(PlayUrl)] is [Available]
    exactly when the stored credentials are a non-empty string; the answer is
    computed from the service record alone, and no feature at all is reported
    [Available] unless the credentials are non-empty. *)
Theorem get_feature_playurl_iff_credentials :
  (forall svc : Service,
      state (get_feature (mkAirPlayFeatures svc) PlayUrl) = Available
      <-> exists c, credentials svc = Some c /\ c <> "") /\
  (forall svc : Service,
      state (get_feature (mkAirPlayFeatures svc) PlayUrl) = Unavailable
      <-> credentials svc = None \/ credentials svc = Some "") /\
  (forall (svc : Service) (f : FeatureName),
      state (get_feature (mkAirPlayFeatures svc) f) = Available ->
      f = PlayUrl /\ exists c, credentials svc = Some c /\ c <> "").
Proof.
  assert (Hcase : forall svc f,
             state (get_feature (mkAirPlayFeatures svc) f) = Available
             <-> f = PlayUrl /\ exists c, credentials svc = Some c /\ c <> "").
  { intros svc f. unfold get_feature, str_truthy. cbn.
    destruct (credentials svc) as [c|] eqn:Hc.
    - repeat case_bool_decide; cbn; split.
      all: try discriminate; try (intros [? (c' & Hc' & Hne)]; congruence).
      + intros _. subst. split; [reflexivity|]. exists c. split; congruence.
    - case_bool_decide; cbn; split; try discriminate.
      all: intros [? (c' & Hc' & _)]; discriminate. }
  split; [|split].
  - intros svc. rewrite Hcase. split; [intros [_ H]; exact H | intros H; split; [reflexivity | exact H]].
  - intros svc.
    destruct (state (get_feature (mkAirPlayFeatures svc) PlayUrl)) eqn:Hs.
    + apply Hcase in Hs as [_ (c & Hc & Hne)].
      split; [discriminate|]. intros [H|H]; congruence.
    + split; [intros _ | reflexivity].
      destruct (credentials svc) as [c|] eqn:Hc; [|left; reflexivity].
      destruct (decide (c = "")) as [->|Hne]; [right; reflexivity|].
      assert (Available = Unavailable); [|discriminate].
      rewrite <- Hs. symmetry. apply Hcase. split; [reflexivity|]. eauto.
  - intros svc f H. apply Hcase, H.
Qed.


(** ** The generator [setup] *)

Section SetupFacts.
Context (ext : Externals).

(** The world in which the primary descriptor is yielded. *)
Lemma setup_to_primary_run (w : World) (svc : Service) :
  get_service (config w) AirPlay = Some svc ->
  setup_to_primary ext w
  = (Ok (svc, primary_descriptor),
     with_registration (RegStream AirPlay)
       (with_registration (RegFeatures (mkAirPlayFeatures svc) AirPlay)
          (with_stream
             (Some {| service := Some svc;
                      _credentials := parse_credentials ext (credentials svc);
                      _play_task := None |}) w))).
Proof.
  intros Hsvc. unfold setup_to_primary, AirPlayStream_init. run.
  rewrite !Hsvc. reflexivity.
Qed.

Lemma setup_to_primary_no_service (w : World) :
  get_service (config w) AirPlay = None ->
  setup_to_primary ext w = (Raise AssertionError, w).
Proof.
  intros Hsvc. unfold setup_to_primary. run. rewrite Hsvc. reflexivity.
Qed.

(** The decision taken on resumption, in terms of the table. *)
Lemma setup_to_secondary_run (svc : Service) (w : World) :
  setup_to_secondary ext svc w
  = if bridge_eligible (is_supported ext svc)
                       (type (extract_credentials ext svc))
    then (Ok (Some (secondary_descriptor ext svc)),
          with_event EvMrpCreate
            (with_config (fun cfg => add_service cfg (MrpService None 0)) w))
    else (Ok None, w).
Proof.
  unfold setup_to_secondary, secondary_descriptor.
  destruct (is_supported ext svc); cbn [negb bridge_eligible]; [|reflexivity].
  destruct (type (extract_credentials ext svc)); reflexivity.
Qed.

Lemma bridge_eligible_true (supported : bool) (kind : AuthenticationType) :
  bridge_eligible supported kind = true
  <-> supported = true /\ (kind = HAP \/ kind = Transient).
Proof.
  destruct supported, kind; cbn; split; try discriminate; try tauto.
  all: intros [? [?|?]]; discriminate.
Qed.

(** Exhausting the generator takes at most three calls of [next]. *)
Lemma setup_all_run (k : nat) (w : World) (svc : Service) :
  get_service (config w) AirPlay = Some svc ->
  exists w1,
    setup_to_primary ext w = (Ok (svc, primary_descriptor), w1) /\
    config w1 = config w /\
    setup_all ext (3 + k) w
    = if bridge_eligible (is_supported ext svc)
                         (type (extract_credentials ext svc))
      then Some (Ok [primary_descriptor; secondary_descriptor ext svc],
                 with_event EvMrpCreate
                   (with_config
                      (fun cfg => add_service cfg (MrpService None 0)) w1))
      else Some (Ok [primary_descriptor], w1).
Proof.
  intros Hsvc. eexists. split; [apply setup_to_primary_run, Hsvc|].
  split; [reflexivity|].
  unfold setup_all. cbn [Nat.add collect setup_next].
  rewrite (setup_to_primary_run w svc Hsvc).
  cbn [collect setup_next]. rewrite setup_to_secondary_run.
  destruct (bridge_eligible _ _); reflexivity.
Qed.

End SetupFacts.

(** C3. Whether [setup] goes on to yield the secondary (MRP) descriptor is
    decided by the capability flag [is_supported(service)] and the kind of the
    extracted credentials alone, whatever the rest of the world is; the
    decision is true exactly when the flag is true and the kind is HAP or
    Transient, and false for the six other combinations. *)
Theorem bridge_eligibility_is_flag_and_kind :
  (forall (ext : Externals) (svc : Service) (w : World),
      yields_secondary ext svc w
      = bridge_eligible (is_supported ext svc)
                        (type (extract_credentials ext svc))) /\
  (forall (supported : bool) (kind : AuthenticationType),
      bridge_eligible supported kind = true
      <-> supported = true /\ (kind = HAP \/ kind = Transient)) /\
  bridge_eligible true HAP = true /\
  bridge_eligible true Transient = true /\
  bridge_eligible true Null = false /\
  bridge_eligible true Legacy = false /\
  (forall kind, bridge_eligible false kind = false).
Proof.
  split; [|split; [apply bridge_eligible_true|]].
  - intros ext svc w. unfold yields_secondary. cbn [setup_next].
    rewrite setup_to_secondary_run.
    destruct (bridge_eligible _ _); reflexivity.
  - repeat split.
Qed.

(** C4. For every configuration that carries an AirPlay service, the first
    [next] on the generator yields the primary (AirPlay) descriptor, and the
    whole sequence is that descriptor followed by the secondary (MRP)
    descriptor when the bridge is eligible and by nothing otherwise; with
    [is_supported] false it has exactly one element. *)
Theorem setup_yields_primary_then_optional_secondary
    (ext : Externals) (w : World) (svc : Service) (k : nat) :
  get_service (config w) AirPlay = Some svc ->
  (exists w1, setup_next ext Created w
              = (Ok (Some primary_descriptor), AtPrimaryYield svc, w1)) /\
  (exists ds w',
      setup_all ext (3 + k) w = Some (Ok ds, w') /\
      ds = (if bridge_eligible (is_supported ext svc)
                               (type (extract_credentials ext svc))
            then [primary_descriptor; secondary_descriptor ext svc]
            else [primary_descriptor]) /\
      proto <$> ds
      = (if bridge_eligible (is_supported ext svc)
                            (type (extract_credentials ext svc))
         then [AirPlay; MRP] else [AirPlay]) /\
      (is_supported ext svc = false -> length ds = 1%nat)).
Proof.
  intros Hsvc. split.
  - eexists. cbn [setup_next]. rewrite (setup_to_primary_run ext w svc Hsvc).
    reflexivity.
  - destruct (setup_all_run ext k w svc Hsvc) as (w1 & _ & _ & Hall).
    rewrite Hall.
    destruct (bridge_eligible (is_supported ext svc) _) eqn:Hb;
      do 2 eexists; repeat (split; [reflexivity|]).
    + intros Hsup. rewrite Hsup in Hb. discriminate.
    + reflexivity.
Qed.

(** C9. Running [setup] to exhaustion changes the shared configuration only
    when the bridge is eligible, and then by one [add_service] of the
    placeholder [MrpService(None, 0)]: address and name are kept, the service
    list gains that one entry (no identifier, port 0) at its end.  Up to the
    first yield, and in ineligible runs altogether, the configuration is
    unchanged. *)
Theorem setup_config_frame
    (ext : Externals) (w : World) (svc : Service) (k : nat) :
  get_service (config w) AirPlay = Some svc ->
  (forall r gen w1, setup_next ext Created w = (r, gen, w1) ->
                    config w1 = config w) /\
  (exists ds w',
      setup_all ext (3 + k) w = Some (Ok ds, w') /\
      address (config w') = address (config w) /\
      name (config w') = name (config w) /\
      services (config w')
      = (if bridge_eligible (is_supported ext svc)
                            (type (extract_credentials ext svc))
         then services (config w)
              ++ [{| protocol := MRP; identifier := None; port := 0;
                     properties := []; credentials := None |}]
         else services (config w)) /\
      (bridge_eligible (is_supported ext svc)
                       (type (extract_credentials ext svc)) = false ->
       config w' = config w)).
Proof.
  intros Hsvc. split.
  - intros r gen w1. cbn [setup_next].
    rewrite (setup_to_primary_run ext w svc Hsvc). intros [= _ _ <-]. reflexivity.
  - destruct (setup_all_run ext k w svc Hsvc) as (w1 & _ & Hcfg & Hall).
    rewrite Hall.
    destruct (bridge_eligible _ _); do 2 eexists; (split; [reflexivity|]);
      cbn; rewrite Hcfg; repeat (split; [reflexivity|]);
      [discriminate | reflexivity].
Qed.

(** ** The closures handed out in the descriptors *)

Lemma cancellations_nil : cancellations [].
Proof. intros e He. inversion He. Qed.

Lemma await_after_event {A} (s : Suspension A) (e : Event) (w : World) :
  exists evs,
    await s (with_event e w) = (outcome s, interfere (closes_meanwhile s) (with_event e w)) /\
    trace (interfere (closes_meanwhile s) (with_event e w)) = trace w ++ e :: evs /\
    cancellations evs.
Proof.
  destruct (interfere_trace (closes_meanwhile s) (with_event e w)) as (evs & Ht & Hc).
  exists evs. split; [reflexivity|]. split; [|exact Hc].
  rewrite Ht. cbn. rewrite <- app_assoc. reflexivity.
Qed.

Lemma close_run (w : World) (s : AirPlayStream) :
  stream w = Some s ->
  _close w = (Ok ∅, cancelled w).
Proof.
  intros Hs. unfold _close, AirPlayStream_close, cancelled. run.
  rewrite Hs. destruct (_play_task s) as [t|]; run; [|reflexivity].
  rewrite Hs. reflexivity.
Qed.

Lemma cancelled_idempotent (w : World) : cancelled (cancelled w) = cancelled w.
Proof.
  unfold cancelled at 1.
  destruct (stream w) as [s|] eqn:Hs.
  - rewrite (cancelled_slot w s Hs). reflexivity.
  - assert (Hid : cancelled w = w) by (unfold cancelled; rewrite Hs; reflexivity).
    rewrite Hid, Hs. reflexivity.
Qed.

(** C7. The primary descriptor yielded by [setup] has a [connect] that does
    nothing, and a [close] that closes the stream object: it returns the
    empty set without raising, cancels the tracked task if there is one and
    leaves the slot empty.  This holds in the world just after set-up, where
    [connect] was never called, and a second [close] changes nothing. *)
Theorem primary_connect_noop_close_idempotent
    (ext : Externals) (w : World) (svc : Service) :
  get_service (config w) AirPlay = Some svc ->
  exists d w1,
    setup_next ext Created w = (Ok (Some d), AtPrimaryYield svc, w1) /\
    proto d = AirPlay /\
    (forall w', connect d w' = (Ok tt, w')) /\
    close d w1 = (Ok ∅, w1) /\
    (forall w' s,
        stream w' = Some s ->
        exists w'',
          close d w' = (Ok ∅, w'') /\
          play_task_slot w'' = Some None /\
          config w'' = config w' /\
          trace w'' = trace w' ++ match _play_task s with
                                  | Some t => [EvTaskCancel t]
                                  | None => []
                                  end /\
          close d w'' = (Ok ∅, w'')).
Proof.
  intros Hsvc. eexists primary_descriptor, _. cbn [setup_next].
  rewrite (setup_to_primary_run ext w svc Hsvc).
  split; [reflexivity|]. split; [reflexivity|]. split; [reflexivity|]. split.
  - cbn [close primary_descriptor]. erewrite close_run by reflexivity. reflexivity.
  - intros w' s Hs. exists (cancelled w'). cbn [close primary_descriptor].
    pose proof (cancelled_slot w' s Hs) as Hs'.
    split; [apply (close_run w' s Hs)|].
    split; [unfold play_task_slot; rewrite Hs'; reflexivity|].
    split; [apply cancelled_config|]. split.
    + unfold cancelled. rewrite Hs. destruct (_play_task s); cbn; [reflexivity|].
      rewrite app_nil_r. reflexivity.
    + rewrite (close_run _ _ Hs'), cancelled_idempotent. reflexivity.
Qed.

Section ConnectRc.
Context (ext : Externals).

(** [_connect_rc] when the channel start raises. *)
Lemma connect_rc_start_raises (control_port : Z) (creds : HapCredentials)
    (w : World) (ex : exn) :
  outcome (control_start ext (address (config w)) control_port creds) = Raise ex ->
  exists w' evs,
    _connect_rc ext control_port creds w
    = (if is_Exception ex then Ok tt else Raise ex, w') /\
    trace w' = trace w ++ evs /\
    (EvMrpConnect ∉ evs) /\
    (is_Exception ex = true -> EvLogException ex ∈ evs).
Proof.
  intros Hstart.
  unfold _connect_rc, try_except_Exception_else. run.
  destruct (await_after_event
              (control_start ext (address (config w)) control_port creds)
              (EvControlStart (address (config w)) control_port creds) w)
    as (evs & -> & Htr & Hc).
  rewrite Hstart.
  destruct (is_Exception ex) eqn:Hex.
  - eexists _, (_ :: evs ++ [EvLogException ex]). split; [reflexivity|].
    cbn. rewrite Htr. split; [rewrite <- app_assoc; reflexivity|]. split.
    + intros Hin. apply elem_of_cons in Hin as [Hin|Hin]; [discriminate|].
      apply elem_of_app in Hin as [Hin|Hin].
      * apply Hc in Hin as [t Ht]. discriminate.
      * apply list_elem_of_singleton in Hin. discriminate.
    + intros _. apply elem_of_cons. right. apply elem_of_app. right.
      apply list_elem_of_singleton. reflexivity.
  - eexists _, (_ :: evs). split; [reflexivity|].
    split; [exact Htr|]. split; [|discriminate].
    intros Hin. apply elem_of_cons in Hin as [Hin|Hin]; [discriminate|].
    apply Hc in Hin as [t Ht]. discriminate.
Qed.

(** [_connect_rc] when the channel start returns. *)
Lemma connect_rc_start_returns (control_port : Z) (creds : HapCredentials)
    (w : World) :
  outcome (control_start ext (address (config w)) control_port creds) = Ok tt ->
  exists w' evs,
    _connect_rc ext control_port creds w = (outcome (mrp_connect ext), w') /\
    trace w' = trace w ++ evs /\
    (EvMrpConnect ∈ evs) /\
    (forall e, EvLogException e ∉ evs).
Proof.
  intros Hstart.
  unfold _connect_rc, try_except_Exception_else. run.
  destruct (await_after_event
              (control_start ext (address (config w)) control_port creds)
              (EvControlStart (address (config w)) control_port creds) w)
    as (evs & -> & Htr & Hc).
  rewrite Hstart.
  destruct (await_after_event (mrp_connect ext) EvMrpConnect
              (interfere
                 (closes_meanwhile
                    (control_start ext (address (config w)) control_port creds))
                 (with_event
                    (EvControlStart (address (config w)) control_port creds) w)))
    as (evs2 & -> & Htr2 & Hc2).
  eexists _, (_ :: evs ++ EvMrpConnect :: evs2). split; [reflexivity|].
  rewrite Htr2, Htr. split.
  { rewrite <- app_assoc. reflexivity. }
  split.
  - apply elem_of_cons. right. apply elem_of_app. right. apply elem_of_cons.
    left. reflexivity.
  - intros e Hin. apply elem_of_cons in Hin as [Hin|Hin]; [discriminate|].
    apply elem_of_app in Hin as [Hin|Hin].
    + apply Hc in Hin as [t Ht]. discriminate.
    + apply elem_of_cons in Hin as [Hin|Hin]; [discriminate|].
      apply Hc2 in Hin as [t Ht]. discriminate.
Qed.

End ConnectRc.

(** C2 (amended). When the bridge is eligible, [setup] yields the secondary
    (MRP) descriptor, whatever the channel start will do later.  If the
    start then raises an instance of [Exception], the descriptor's connect
    logs it, does not call the MRP connect and returns normally; an
    exception outside [Exception] is not caught: it leaves connect
    unchanged, and the MRP connect is not called either. *)
Theorem connect_rc_absorbs_start_Exception
    (ext : Externals) (w : World) (svc : Service) (k : nat)
    (wc : World) (ex : exn) :
  get_service (config w) AirPlay = Some svc ->
  bridge_eligible (is_supported ext svc) (type (extract_credentials ext svc)) = true ->
  outcome (control_start ext (address (config wc)) (port svc)
             (extract_credentials ext svc)) = Raise ex ->
  exists d1 d2 w',
    setup_all ext (3 + k) w = Some (Ok [d1; d2], w') /\
    proto d2 = MRP /\
    exists wc' evs,
      connect d2 wc = (if is_Exception ex then Ok tt else Raise ex, wc') /\
      trace wc' = trace wc ++ evs /\
      (EvMrpConnect ∉ evs) /\
      (is_Exception ex = true -> EvLogException ex ∈ evs).
Proof.
  intros Hsvc Hel Hstart.
  destruct (setup_all_run ext k w svc Hsvc) as (w1 & _ & _ & Hall).
  rewrite Hel in Hall.
  eexists primary_descriptor, (secondary_descriptor ext svc), _.
  split; [exact Hall|]. split; [reflexivity|].
  apply connect_rc_start_raises, Hstart.
Qed.

(** C10. In [_connect_rc] only the channel start is guarded: when it
    returns and the MRP connect then raises, that exception leaves
    [_connect_rc] unchanged and nothing is logged. *)
Theorem connect_rc_propagates_mrp_connect_failure
    (ext : Externals) (control_port : Z) (creds : HapCredentials)
    (w : World) (ex : exn) :
  outcome (control_start ext (address (config w)) control_port creds) = Ok tt ->
  outcome (mrp_connect ext) = Raise ex ->
  exists w' evs,
    _connect_rc ext control_port creds w = (Raise ex, w') /\
    trace w' = trace w ++ evs /\
    (EvMrpConnect ∈ evs) /\
    (forall e, EvLogException e ∉ evs).
Proof.
  intros Hstart Hmrp.
  destruct (connect_rc_start_returns ext control_port creds w Hstart)
    as (w' & evs & Hrun & Hrest).
  rewrite Hmrp in Hrun. exists w', evs. split; [exact Hrun | exact Hrest].
Qed.

(** ** Composition rules for [evolves] and [tracks] *)

Section Evolves.
Context (P : Event -> Prop).

Lemma evolves_refl (w : World) : evolves P w w.
Proof.
  split; [reflexivity|]. split.
  - intros [sv cr v] Hs. exists v. exact Hs.
  - exists []. rewrite app_nil_r. split; [reflexivity | constructor].
Qed.

Lemma evolves_trans (w1 w2 w3 : World) :
  evolves P w1 w2 -> evolves P w2 w3 -> evolves P w1 w3.
Proof.
  intros (Hc1 & Hs1 & evs1 & Ht1 & Hp1) (Hc2 & Hs2 & evs2 & Ht2 & Hp2).
  split; [congruence|]. split.
  - intros s Hs. destruct (Hs1 s Hs) as [v Hv].
    destruct (Hs2 _ Hv) as [v' Hv']. exists v'. exact Hv'.
  - exists (evs1 ++ evs2). split.
    + rewrite Ht2, Ht1, app_assoc. reflexivity.
    + apply Forall_app. split; assumption.
Qed.

Lemma evolves_event (e : Event) (w : World) : P e -> evolves P w (with_event e w).
Proof.
  intros He. split; [reflexivity|]. split.
  - intros [sv cr v] Hs. exists v. exact Hs.
  - exists [e]. split; [reflexivity|]. repeat constructor. exact He.
Qed.

Lemma evolves_cancelled (w : World) :
  (forall t, P (EvTaskCancel t)) -> evolves P w (cancelled w).
Proof.
  intros Hp. split; [apply cancelled_config|]. split.
  - intros s Hs. exists None. apply cancelled_slot, Hs.
  - destruct (cancelled_trace w) as (evs & Ht & Hc). exists evs.
    split; [exact Ht|]. apply Forall_forall. intros e He.
    destruct (Hc e He) as [t ->]. apply Hp.
Qed.

Lemma evolves_interfere (n : nat) (w : World) :
  (forall t, P (EvTaskCancel t)) -> evolves P w (interfere n w).
Proof.
  intros Hp. destruct (interfere_cases n w) as [-> | ->];
    [apply evolves_refl | apply evolves_cancelled, Hp].
Qed.

Lemma tracks_ret {A} (a : A) : tracks P (mret a).
Proof. intros w. apply evolves_refl. Qed.

Lemma tracks_raise {A} (e : exn) : tracks P (@raise A e).
Proof. intros w. apply evolves_refl. Qed.

Lemma tracks_lift_result {A} (r : result A) : tracks P (lift_result r).
Proof. intros w. apply evolves_refl. Qed.

Lemma tracks_get_config : tracks P get_config.
Proof. intros w. apply evolves_refl. Qed.

Lemma tracks_get_stream : tracks P get_stream.
Proof.
  intros w. unfold get_stream. destruct (stream w); apply evolves_refl.
Qed.

Lemma tracks_attr {A B} (o : option A) (f : A -> B) : tracks P (attr o f).
Proof. destruct o; intros w; apply evolves_refl. Qed.

Lemma tracks_emit (e : Event) : P e -> tracks P (emit e).
Proof. intros He w. apply evolves_event, He. Qed.

Lemma tracks_set_play_task (v : option Task) : tracks P (set_play_task v).
Proof.
  intros w. unfold set_play_task.
  destruct (stream w) as [s|] eqn:Hs; cbn; [|apply evolves_refl].
  split; [reflexivity|]. split.
  - intros s' Hs'. exists v. cbn. congruence.
  - exists []. cbn. rewrite app_nil_r. split; [reflexivity | constructor].
Qed.

Lemma tracks_await {A} (s : Suspension A) :
  (forall t, P (EvTaskCancel t)) -> tracks P (await s).
Proof. intros Hp w. apply evolves_interfere, Hp. Qed.

Lemma tracks_bind {A B} (m : M A) (f : A -> M B) :
  tracks P m -> (forall a, tracks P (f a)) -> tracks P (m ≫= f).
Proof.
  intros Hm Hf w. unfold mbind, M_bind.
  specialize (Hm w). destruct (m w) as [[a|e] w1]; cbn in *; [|exact Hm].
  eapply evolves_trans; [exact Hm | apply Hf].
Qed.

Lemma tracks_bind_result {A B} (r : result A) (f : A -> M B) :
  (forall a, r = Ok a -> tracks P (f a)) -> tracks P (lift_result r ≫= f).
Proof.
  intros Hf w. unfold mbind, M_bind, lift_result.
  destruct r as [a|e]; cbn; [apply (Hf a eq_refl) | apply evolves_refl].
Qed.

End Evolves.

(** ** [AirPlayStream.play_url] *)

Section PlayUrlFacts.
Context (ext : Externals) (kwargs : gmap string PyValue).
Context (P : Event -> Prop).
Hypothesis P_other :
  forall e, (forall t c u p, e <> EvEnsureFuture t c u p) -> P e.
Hypothesis P_position :
  forall t c u p,
    py_int ext (default (PyInt 0) (kwargs !! "position")) = Ok p ->
    P (EvEnsureFuture t c u p).

Lemma tracks_ensure_future (c : HttpConnection) (u : string) (p : Z) :
  py_int ext (default (PyInt 0) (kwargs !! "position")) = Ok p ->
  tracks P (ensure_future c u p).
Proof.
  intros Hp w. unfold ensure_future. cbn.
  split; [reflexivity|]. split.
  - intros [sv cr v] Hs. exists v. exact Hs.
  - eexists [_]. split; [reflexivity|]. repeat constructor.
    apply P_position, Hp.
Qed.

Lemma tracks_play_url_play (c : HttpConnection) (url : string) :
  tracks P (play_url_play ext c url kwargs).
Proof.
  unfold play_url_play. apply tracks_bind_result. intros p Hp.
  apply tracks_bind; [apply tracks_ensure_future, Hp|]. intros t.
  apply tracks_bind; [apply tracks_set_play_task|]. intros _.
  apply tracks_await. intros t'. apply P_other. discriminate.
Qed.

Lemma tracks_play_url_prepare (url : string) :
  tracks P (play_url_prepare ext url).
Proof.
  unfold play_url_prepare. destruct (path_exists ext url); [|apply tracks_ret].
  apply tracks_bind; [apply tracks_get_config|]. intros cfg.
  apply tracks_bind; [apply tracks_emit, P_other; discriminate|]. intros _.
  apply tracks_bind; [|intros _; apply tracks_ret].
  apply tracks_await. intros t. apply P_other. discriminate.
Qed.

Lemma tracks_play_url_finally (server : option StaticFileWebServer)
    (connection : option HttpConnection) :
  tracks P (play_url_finally ext server connection).
Proof.
  unfold play_url_finally.
  apply tracks_bind; [apply tracks_set_play_task|]. intros _.
  apply tracks_bind.
  - destruct connection; [apply tracks_emit, P_other; discriminate | apply tracks_ret].
  - intros _. destruct server; [|apply tracks_ret].
    apply tracks_bind; [apply tracks_emit, P_other; discriminate|]. intros _.
    apply tracks_await. intros t. apply P_other. discriminate.
Qed.

(** After the connection is made: verification and playback. *)
Lemma tracks_play_url_connected (self : AirPlayStream) (c : HttpConnection)
    (url : string) :
  tracks P (emit (EvVerify (_credentials self) c);;
            await (verify_connection ext (_credentials self) c);;
            play_url_play ext c url kwargs).
Proof.
  apply tracks_bind; [apply tracks_emit, P_other; discriminate|]. intros _.
  apply tracks_bind; [|intros _; apply tracks_play_url_play].
  apply tracks_await. intros t. apply P_other. discriminate.
Qed.

(** The body of [try], for a stream object that has a service: the
    connection attempt is the first event, [connection] is bound exactly
    when [http_connect] returns. *)
Lemma play_url_try_run (self : AirPlayStream) (svc : Service) (url : string)
    (w : World) :
  service self = Some svc ->
  exists r w2 evs,
    play_url_try ext self url kwargs w
    = (match outcome (http_connect ext (address (config w)) (port svc)) with
       | Ok c => Some c
       | Raise _ => None
       end, (r, w2)) /\
    evolves P w w2 /\
    trace w2 = trace w ++ EvHttpConnect (address (config w)) (port svc) :: evs.
Proof.
  intros Hsvc. unfold play_url_try. rewrite Hsvc. run.
  set (w0 := with_event (EvHttpConnect (address (config w)) (port svc)) w).
  set (susp := http_connect ext (address (config w)) (port svc)).
  assert (H0 : evolves P w w0) by (apply evolves_event, P_other; discriminate).
  assert (H1 : evolves P w0 (interfere (closes_meanwhile susp) w0)).
  { apply evolves_interfere. intros t. apply P_other. discriminate. }
  unfold await at 1.
  destruct (outcome susp) as [c|e].
  - pose proof (tracks_play_url_connected self c url
                  (interfere (closes_meanwhile susp) w0)) as H2.
    destruct ((emit (EvVerify (_credentials self) c);;
               await (verify_connection ext (_credentials self) c);;
               play_url_play ext c url kwargs)
                (interfere (closes_meanwhile susp) w0)) as [r w2] eqn:Hrun.
    cbn [snd] in H2.
    pose proof (evolves_trans P _ _ _ H1 H2) as H12.
    destruct H12 as (_ & _ & evs & Ht & _).
    exists r, w2, evs. unfold mbind, M_bind, emit in Hrun |- *.
    rewrite Hrun. split; [reflexivity|].
    split; [eapply evolves_trans; [exact H0|]; eapply evolves_trans; eassumption|].
    rewrite Ht. cbn. rewrite <- app_assoc. reflexivity.
  - destruct H1 as (_ & _ & evs & Ht & _).
    eexists _, _, evs. split; [reflexivity|].
    split.
    + eapply evolves_trans; [exact H0|]. apply evolves_interfere.
      intros t. apply P_other. discriminate.
    + rewrite Ht. cbn. rewrite <- app_assoc. reflexivity.
Qed.

(** The [finally] clause on a bound stream object. *)
Lemma play_url_finally_run (server : option StaticFileWebServer)
    (connection : option HttpConnection) (w : World) (s : AirPlayStream) :
  stream w = Some s ->
  exists r w3,
    play_url_finally ext server connection w = (r, w3) /\
    play_task_slot w3 = Some None /\
    trace w3 = trace w
               ++ match connection with
                  | Some c => [EvConnectionClose c]
                  | None => []
                  end
               ++ match server with
                  | Some sv => [EvServerClose sv]
                  | None => []
                  end.
Proof.
  intros Hs. unfold play_url_finally. run. rewrite Hs.
  destruct connection as [c|], server as [sv|]; run.
  1,3: unfold await; rewrite interfere_without_task
    by (cbn; intros s' [= <-]; reflexivity).
  all: eexists _, _; split; [reflexivity|]; split; [reflexivity|]; cbn.
  all: rewrite <- ?app_assoc, ?app_nil_r; reflexivity.
Qed.

End PlayUrlFacts.

(** The guard of [play_url] (lines 91-92), on a stream object whose
    [service] attribute is [None]: [NotSupportedError], and the world is left
    as it was. *)
Lemma play_url_guard (ext : Externals) (url : string)
    (kwargs : gmap string PyValue) (w : World) (self : AirPlayStream) :
  stream w = Some self ->
  service self = None ->
  play_url ext url kwargs w = (Raise NotSupportedError, w).
Proof.
  intros Hs Hsvc. unfold play_url. run. rewrite Hs. cbn. rewrite Hsvc.
  reflexivity.
Qed.

(** A stream object that the constructor returns always has a service: the
    guard of [play_url] cannot fire on it. *)
Lemma AirPlayStream_init_has_service (ext : Externals) (w w' : World) :
  AirPlayStream_init ext w = (Ok tt, w') ->
  exists self svc, stream w' = Some self /\ service self = Some svc /\
                   get_service (config w) AirPlay = Some svc.
Proof.
  unfold AirPlayStream_init. run.
  destruct (get_service (config w) AirPlay) as [svc|]; cbn; [|discriminate].
  intros [= <-]. eexists _, svc. cbn. repeat split.
Qed.

(** Decomposition of [play_url] past the guard. *)
Lemma play_url_past_guard (ext : Externals) (url : string)
    (kwargs : gmap string PyValue) (w : World) (self : AirPlayStream)
    (svc : Service) :
  stream w = Some self ->
  service self = Some svc ->
  play_url ext url kwargs w
  = match play_url_prepare ext url w with
    | (Ok (server, url'), w1) =>
        try_finally (play_url_try ext self url' kwargs)
                    (play_url_finally ext server) w1
    | (Raise e, w1) => (Raise e, w1)
    end.
Proof.
  intros Hs Hsvc. unfold play_url. run. rewrite Hs. cbn. rewrite Hsvc. cbn.
  destruct (play_url_prepare ext url w) as [[[server url']|e] w1]; reflexivity.
Qed.

(** C1. For every call of [play_url] that gets past the preparation of the
    source (so that the connection is attempted), however the call ends --
    playback returns, any step raises, a cancellation arrives at any
    suspension point or through [close()] -- the slot [_play_task] is [None]
    in the final world, the connection is closed if [http_connect] returned
    one, and the web server is closed if one was started. *)
Theorem play_url_terminal_cleanup
    (ext : Externals) (url : string) (kwargs : gmap string PyValue)
    (w : World) (self : AirPlayStream) (svc : Service)
    (server : option StaticFileWebServer) (url' : string) (w1 : World) :
  stream w = Some self ->
  service self = Some svc ->
  play_url_prepare ext url w = (Ok (server, url'), w1) ->
  exists evs,
    trace (snd (play_url ext url kwargs w)) = trace w1 ++ evs /\
    play_task_slot (snd (play_url ext url kwargs w)) = Some None /\
    (EvHttpConnect (address (config w)) (port svc) ∈ evs) /\
    (forall c,
        outcome (http_connect ext (address (config w)) (port svc)) = Ok c ->
        EvConnectionClose c ∈ evs) /\
    (forall s, server = Some s -> EvServerClose s ∈ evs) /\
    (path_exists ext url = true <-> is_Some server).
Proof.
  intros Hs Hsvc Hprep.
  rewrite (play_url_past_guard ext url kwargs w self svc Hs Hsvc), Hprep.
  pose proof (tracks_play_url_prepare ext (fun _ => True) (fun _ _ => I) url w)
    as Hev1.
  rewrite Hprep in Hev1. cbn [snd] in Hev1.
  destruct Hev1 as (Hcfg1 & Hst1 & _).
  destruct (Hst1 self Hs) as [v1 Hs1].
  destruct (play_url_try_run ext kwargs (fun _ => True) (fun _ _ => I)
              (fun _ _ _ _ _ => I) self svc url' w1 Hsvc)
    as (r & w2 & evs2 & Htry & Hev2 & Htr2).
  destruct Hev2 as (_ & Hst2 & _).
  destruct (Hst2 _ Hs1) as [v2 Hs2].
  unfold try_finally. rewrite Htry.
  destruct (play_url_finally_run ext server
              (match outcome (http_connect ext (address (config w1)) (port svc)) with
               | Ok c => Some c
               | Raise _ => None
               end) w2 _ Hs2) as (rf & w3 & Hfin & Hslot & Htr3).
  rewrite Hfin.
  assert (Hw3 : snd (match rf with
                     | Ok _ => (r, w3)
                     | Raise e => (Raise e, w3)
                     end) = w3) by (destruct rf; reflexivity).
  rewrite Hw3, Htr3, Htr2, Hcfg1.
  eexists. split; [rewrite <- !app_assoc; reflexivity|].
  split; [exact Hslot|]. split; [|split; [|split]].
  - apply elem_of_cons. left. reflexivity.
  - intros c Hc. rewrite Hc. apply elem_of_cons. right.
    apply elem_of_app. right. apply elem_of_app. left.
    apply list_elem_of_singleton. reflexivity.
  - intros s ->. apply elem_of_cons. right.
    apply elem_of_app. right. apply elem_of_app. right.
    apply list_elem_of_singleton. reflexivity.
  - clear -Hprep. unfold play_url_prepare in Hprep.
    destruct (path_exists ext url).
    + run. unfold await in Hprep. cbn in Hprep.
      destruct (outcome (server_start ext _)); [|discriminate].
      injection Hprep as <- _ _. split; [eauto | reflexivity].
    + run. injection Hprep as <- _ _. split; [discriminate|].
      intros [? [=]].
Qed.

(** The slot is cleared after a failed verification, and both resources
    acquired before it are released. *)
Lemma play_url_terminal_cleanup_witness :
  exists evs,
    trace (snd (play_url (example_externals (Ok tt) (Ok tt)
                            (Raise AuthenticationError) (mkSuspension 0 (Ok tt)))
                  "/media/clip.mp4" ∅ example_stream_world))
    = [EvServerStart (mkStaticFileWebServer "/media/clip.mp4" "10.0.0.1")] ++ evs /\
    play_task_slot
      (snd (play_url (example_externals (Ok tt) (Ok tt)
                        (Raise AuthenticationError) (mkSuspension 0 (Ok tt)))
              "/media/clip.mp4" ∅ example_stream_world)) = Some None /\
    (EvHttpConnect "10.0.0.2" 7000 ∈ evs) /\
    (forall c, Ok 5%nat = Ok c -> EvConnectionClose c ∈ evs) /\
    (forall s, Some (mkStaticFileWebServer "/media/clip.mp4" "10.0.0.1") = Some s ->
               EvServerClose s ∈ evs) /\
    (true = true <->
     is_Some (Some (mkStaticFileWebServer "/media/clip.mp4" "10.0.0.1"))).
Proof.
  apply (play_url_terminal_cleanup
           (example_externals (Ok tt) (Ok tt) (Raise AuthenticationError)
              (mkSuspension 0 (Ok tt)))
           "/media/clip.mp4" ∅ example_stream_world
           {| service := Some example_service;
              _credentials := example_credentials; _play_task := None |}
           example_service
           (Some (mkStaticFileWebServer "/media/clip.mp4" "10.0.0.1"))
           "http://10.0.0.1:8000/clip.mp4"
           (with_event
              (EvServerStart (mkStaticFileWebServer "/media/clip.mp4" "10.0.0.1"))
              example_stream_world));
    reflexivity.
Defined.

(** The same call, cancelled through [close()] while the player runs: the
    full trace. *)
Example play_url_cancelled_by_close :
  play_url (example_externals (Ok tt) (Ok tt) (Ok tt)
              (mkSuspension 1 (Raise CancelledError)))
    "/media/clip.mp4" ∅ example_stream_world
  = (Raise CancelledError,
     {| config := example_config;
        stream := Some {| service := Some example_service;
                          _credentials := example_credentials;
                          _play_task := None |};
        interfaces := []; tasks_created := 1;
        trace := [EvServerStart (mkStaticFileWebServer "/media/clip.mp4" "10.0.0.1");
                  EvHttpConnect "10.0.0.2" 7000;
                  EvVerify example_credentials 5%nat;
                  EvEnsureFuture 0%nat 5%nat "http://10.0.0.1:8000/clip.mp4" 0;
                  EvTaskCancel 0%nat;
                  EvConnectionClose 5%nat;
                  EvServerClose (mkStaticFileWebServer "/media/clip.mp4" "10.0.0.1")] |}).
Proof. reflexivity. Qed.

(** Lines 109-112: when the conversion of the option succeeds, the player is
    started with exactly that position. *)
Lemma play_url_play_hands_position (ext : Externals) (c : HttpConnection)
    (url : string) (kwargs : gmap string PyValue) (w : World) (p : Z) :
  py_int ext (default (PyInt 0) (kwargs !! "position")) = Ok p ->
  exists evs,
    trace (snd (play_url_play ext c url kwargs w))
    = trace w ++ EvEnsureFuture (tasks_created w) c url p :: evs.
Proof.
  intros Hp. unfold play_url_play. run. rewrite Hp. unfold ensure_future. run.
  destruct (stream w) as [s|]; cbn.
  - unfold await.
    match goal with
    | |- context [interfere ?n ?w1] =>
        destruct (interfere_trace n w1) as (evs & Ht & _)
    end.
    exists evs. cbn [snd]. rewrite Ht. cbn. rewrite <- app_assoc. reflexivity.
  - exists []. reflexivity.
Qed.

(** Every event of a whole [play_url] call satisfies a predicate that holds
    of all events but [EvEnsureFuture], and of those with the converted
    position. *)
Lemma tracks_play_url (ext : Externals) (kwargs : gmap string PyValue)
    (P : Event -> Prop) (url : string) :
  (forall e, (forall t c u p, e <> EvEnsureFuture t c u p) -> P e) ->
  (forall t c u p,
      py_int ext (default (PyInt 0) (kwargs !! "position")) = Ok p ->
      P (EvEnsureFuture t c u p)) ->
  tracks P (play_url ext url kwargs).
Proof.
  intros P_other P_position w. unfold play_url, mbind, M_bind, get_stream.
  destruct (stream w) as [self|] eqn:Hs; [|apply evolves_refl].
  destruct (service self) as [svc|] eqn:Hsvc; cbn; [|apply evolves_refl].
  pose proof (tracks_play_url_prepare ext P P_other url w) as H1.
  destruct (play_url_prepare ext url w) as [[[server url']|e] w1];
    cbn [snd] in H1; [|exact H1].
  eapply evolves_trans; [exact H1|].
  destruct (play_url_try_run ext kwargs P P_other P_position self svc url' w1 Hsvc)
    as (r & w2 & evs2 & Htry & Hev2 & _).
  unfold try_finally. rewrite Htry.
  pose proof (tracks_play_url_finally ext P P_other server
                (match outcome (http_connect ext (address (config w1)) (port svc)) with
                 | Ok c => Some c
                 | Raise _ => None
                 end) w2) as H3.
  destruct (play_url_finally ext server _ w2) as [[[]|e] w3]; cbn [snd] in *;
    eapply evolves_trans; eassumption.
Qed.

(** C8 (amended). The position handed to the player is
    [int(kwargs.get("position", 0))]: every start of the player made by a
    [play_url] call carries what [int()] makes of the option -- 0 when the
    option is absent, the integer itself for an integer, the value truncated
    towards zero for a float, the result of the conversion for any other
    object -- and once [play_url] reaches lines 109-112 with a convertible
    option, the player is started with it.  The player is not started when
    the conversion raises.  No sign is checked. *)
Theorem play_url_position_is_int_of_option :
  (forall (ext : Externals) (url : string) (kwargs : gmap string PyValue)
          (w : World),
      exists evs,
        trace (snd (play_url ext url kwargs w)) = trace w ++ evs /\
        forall t c u p,
          EvEnsureFuture t c u p ∈ evs ->
          py_int ext (default (PyInt 0) (kwargs !! "position")) = Ok p /\
          (kwargs !! "position" = None -> p = 0) /\
          (forall z, kwargs !! "position" = Some (PyInt z) -> p = z) /\
          (forall num den,
              kwargs !! "position" = Some (PyFloat num den) ->
              p = Z.quot num (Z.pos den)) /\
          (forall as_int,
              kwargs !! "position" = Some (PyObject as_int) -> as_int = Ok p)) /\
  (forall (ext : Externals) (c : HttpConnection) (url : string)
          (kwargs : gmap string PyValue) (w : World) (p : Z),
      py_int ext (default (PyInt 0) (kwargs !! "position")) = Ok p ->
      exists evs,
        trace (snd (play_url_play ext c url kwargs w))
        = trace w ++ EvEnsureFuture (tasks_created w) c url p :: evs).
Proof.
  split; [|apply play_url_play_hands_position].
  intros ext url kwargs w.
  pose proof (tracks_play_url ext kwargs
                (fun e => forall t c u p,
                     e = EvEnsureFuture t c u p ->
                     py_int ext (default (PyInt 0) (kwargs !! "position")) = Ok p)
                url) as Htr.
  destruct (Htr) with (w := w) as (_ & _ & evs & Ht & Hall).
  - intros e Hne t c u p ->. exfalso. eapply Hne. reflexivity.
  - intros t c u p Hp t' c' u' p' [= _ _ _ <-]. exact Hp.
  - exists evs. split; [exact Ht|]. intros t c u p Hin.
    rewrite Forall_forall in Hall. pose proof (Hall _ Hin t c u p eq_refl) as Hp.
    split; [exact Hp|]. repeat split.
    + intros Hnone. rewrite Hnone in Hp. cbn in Hp. congruence.
    + intros z Hz. rewrite Hz in Hp. cbn in Hp. congruence.
    + intros num den Hf. rewrite Hf in Hp.
      change (Ok (Z.quot num (Z.pos den)) = Ok p) in Hp. congruence.
    + intros as_int Ho. rewrite Ho in Hp. exact Hp.
Qed.

(** [int(-0.5)] is 0: a float is truncated, whatever its sign. *)
Example py_int_truncates_towards_zero (ext : Externals) :
  py_int ext (PyFloat (-1) 2) = Ok 0 /\ py_int ext (PyFloat 7 2) = Ok 3.
Proof. split; reflexivity. Qed.

(** C8, as stated, fails: with [position=-5] in the options the player is
    started at position -5. *)
Lemma play_url_negative_position :
  trace (snd (play_url (example_externals (Ok tt) (Ok tt) (Ok tt)
                          (mkSuspension 0 (Ok tt)))
                "http://host/clip.mp4" {[ "position" := PyInt (-5) ]}
                example_stream_world))
  = [EvHttpConnect "10.0.0.2" 7000;
     EvVerify example_credentials 5%nat;
     EvEnsureFuture 0%nat 5%nat "http://host/clip.mp4" (-5);
     EvConnectionClose 5%nat] /\
  -5 < 0.
Proof. split; [vm_compute; reflexivity | lia]. Qed.

(** The constructor on a configuration without an AirPlay service: line 74
    reads [self.service.credentials] with [self.service] being [None]. *)
Lemma AirPlayStream_init_without_service (ext : Externals) (w : World) :
  get_service (config w) AirPlay = None ->
  AirPlayStream_init ext w = (Raise AttributeError, w).
Proof.
  intros Hsvc. unfold AirPlayStream_init. run. rewrite Hsvc. reflexivity.
Qed.

(** C6. On a stream object whose [service] attribute is [None] -- what
    [config.get_service(Protocol.AirPlay)] is for a configuration without an
    AirPlay service -- every call of [play_url] raises [NotSupportedError]
    at the guard of lines 91-92, for a remote url and for a local file
    alike: nothing is called or awaited, so no web server is started and no
    connection is opened, and the world, the slot [_play_task] included, is
    left exactly as it was. *)
Theorem play_url_without_service_fails
    (ext : Externals) (url : string) (kwargs : gmap string PyValue)
    (w : World) (self : AirPlayStream) :
  stream w = Some self ->
  service self = None ->
  play_url ext url kwargs w = (Raise NotSupportedError, w) /\
  trace (snd (play_url ext url kwargs w)) = trace w /\
  tasks_created (snd (play_url ext url kwargs w)) = tasks_created w /\
  play_task_slot (snd (play_url ext url kwargs w)) = Some (_play_task self).
Proof.
  intros Hs Hsvc.
  rewrite (play_url_guard ext url kwargs w self Hs Hsvc). cbn [snd].
  repeat split. unfold play_task_slot. rewrite Hs. reflexivity.
Qed.

Lemma play_url_without_service_fails_witness :
  play_url example_externals_busy "/media/clip.mp4" ∅ example_unserviced_world
  = (Raise NotSupportedError, example_unserviced_world) /\
  trace (snd (play_url example_externals_busy "/media/clip.mp4" ∅
                example_unserviced_world)) = [] /\
  tasks_created (snd (play_url example_externals_busy "/media/clip.mp4" ∅
                        example_unserviced_world)) = 4%nat /\
  play_task_slot (snd (play_url example_externals_busy "/media/clip.mp4" ∅
                         example_unserviced_world)) = Some (Some 3%nat).
Proof.
  exact (play_url_without_service_fails example_externals_busy
           "/media/clip.mp4" ∅ example_unserviced_world
           {| service := None; _credentials := example_credentials;
              _play_task := Some 3%nat |}
           eq_refl eq_refl).
Defined.

(** ** The statements about [setup] at concrete inputs *)

Lemma setup_yields_primary_then_optional_secondary_witness :
  (exists w1,
      setup_next (example_externals (Ok tt) (Ok tt) (Ok tt) (mkSuspension 0 (Ok tt)))
        Created (example_world example_config)
      = (Ok (Some primary_descriptor), AtPrimaryYield example_service, w1)) /\
  (exists ds w',
      setup_all (example_externals (Ok tt) (Ok tt) (Ok tt) (mkSuspension 0 (Ok tt)))
        3 (example_world example_config) = Some (Ok ds, w') /\
      ds = [primary_descriptor;
            secondary_descriptor
              (example_externals (Ok tt) (Ok tt) (Ok tt) (mkSuspension 0 (Ok tt)))
              example_service] /\
      proto <$> ds = [AirPlay; MRP] /\
      (true = false -> length ds = 1%nat)).
Proof.
  apply (setup_yields_primary_then_optional_secondary
           (example_externals (Ok tt) (Ok tt) (Ok tt) (mkSuspension 0 (Ok tt)))
           (example_world example_config) example_service 0).
  reflexivity.
Defined.

Lemma setup_config_frame_witness :
  (forall r gen w1,
      setup_next (example_externals (Ok tt) (Ok tt) (Ok tt) (mkSuspension 0 (Ok tt)))
        Created (example_world example_config) = (r, gen, w1) ->
      config w1 = example_config) /\
  (exists ds w',
      setup_all (example_externals (Ok tt) (Ok tt) (Ok tt) (mkSuspension 0 (Ok tt)))
        3 (example_world example_config) = Some (Ok ds, w') /\
      address (config w') = "10.0.0.2" /\
      name (config w') = "Living room" /\
      services (config w') = [example_service; MrpService None 0] /\
      (true = false -> config w' = example_config)).
Proof.
  apply (setup_config_frame
           (example_externals (Ok tt) (Ok tt) (Ok tt) (mkSuspension 0 (Ok tt)))
           (example_world example_config) example_service 0).
  reflexivity.
Defined.

Lemma primary_connect_noop_close_idempotent_witness :
  exists d w1,
    setup_next (example_externals (Ok tt) (Ok tt) (Ok tt) (mkSuspension 0 (Ok tt)))
      Created (example_world example_config)
    = (Ok (Some d), AtPrimaryYield example_service, w1) /\
    proto d = AirPlay /\
    (forall w', connect d w' = (Ok tt, w')) /\
    close d w1 = (Ok ∅, w1) /\
    (forall w' s,
        stream w' = Some s ->
        exists w'',
          close d w' = (Ok ∅, w'') /\
          play_task_slot w'' = Some None /\
          config w'' = config w' /\
          trace w'' = trace w' ++ match _play_task s with
                                  | Some t => [EvTaskCancel t]
                                  | None => []
                                  end /\
          close d w'' = (Ok ∅, w'')).
Proof.
  apply (primary_connect_noop_close_idempotent
           (example_externals (Ok tt) (Ok tt) (Ok tt) (mkSuspension 0 (Ok tt)))
           (example_world example_config) example_service).
  reflexivity.
Defined.

(** C2, as stated, fails: a cancellation that arrives while the channel
    start is awaited ([CancelledError], not an [Exception] from Python 3.8
    on) leaves [_connect_rc]; so does [KeyboardInterrupt]. *)
Lemma connect_rc_raises_on_cancelled_start :
  outcome (control_start
             (example_externals (Raise CancelledError) (Ok tt) (Ok tt)
                (mkSuspension 0 (Ok tt)))
             "10.0.0.2" 7000 example_credentials) = Raise CancelledError /\
  _connect_rc (example_externals (Raise CancelledError) (Ok tt) (Ok tt)
                 (mkSuspension 0 (Ok tt)))
    7000 example_credentials example_stream_world
  = (Raise CancelledError,
     with_event (EvControlStart "10.0.0.2" 7000 example_credentials)
       example_stream_world) /\
  fst (_connect_rc (example_externals (Raise KeyboardInterrupt) (Ok tt) (Ok tt)
                      (mkSuspension 0 (Ok tt)))
         7000 example_credentials example_stream_world)
  = Raise KeyboardInterrupt.
Proof. repeat split. Qed.

Lemma connect_rc_absorbs_start_Exception_witness :
  exists d1 d2 w',
    setup_all (example_externals (Raise ConnectionError) (Ok tt) (Ok tt)
                 (mkSuspension 0 (Ok tt)))
      3 (example_world example_config) = Some (Ok [d1; d2], w') /\
    proto d2 = MRP /\
    exists wc' evs,
      connect d2 example_stream_world = (Ok tt, wc') /\
      trace wc' = [] ++ evs /\
      (EvMrpConnect ∉ evs) /\
      (true = true -> EvLogException ConnectionError ∈ evs).
Proof.
  apply (connect_rc_absorbs_start_Exception
           (example_externals (Raise ConnectionError) (Ok tt) (Ok tt)
              (mkSuspension 0 (Ok tt)))
           (example_world example_config) example_service 0
           example_stream_world ConnectionError);
    reflexivity.
Defined.

Lemma connect_rc_propagates_mrp_connect_failure_witness :
  exists w' evs,
    _connect_rc (example_externals (Ok tt) (Raise (OtherException 1)) (Ok tt)
                   (mkSuspension 0 (Ok tt)))
      7000 example_credentials example_stream_world
    = (Raise (OtherException 1), w') /\
    trace w' = [] ++ evs /\
    (EvMrpConnect ∈ evs) /\
    (forall e, EvLogException e ∉ evs).
Proof.
  apply (connect_rc_propagates_mrp_connect_failure
           (example_externals (Ok tt) (Raise (OtherException 1)) (Ok tt)
              (mkSuspension 0 (Ok tt)))
           7000 example_credentials example_stream_world (OtherException 1));
    reflexivity.
Defined.

(** * Further properties *)

(** ** [play_url], call by call *)

Lemma interfere_tracked (k : nat) (w : World) (s : AirPlayStream) (t : Task) :
  stream w = Some s ->
  _play_task s = Some t ->
  interfere (S k) w = cancelled w.
Proof.
  intros Hs Ht. cbn [interfere].
  assert (Hc : snd (AirPlayStream_close w) = cancelled w).
  { unfold AirPlayStream_close, cancelled, mbind, M_bind, get_stream,
      emit, set_play_task.
    rewrite Hs. cbn. rewrite Ht. cbn. rewrite Hs. reflexivity. }
  rewrite Hc. apply interfere_without_task.
  unfold cancelled. rewrite Hs, Ht. cbn. intros s' [= <-]. reflexivity.
Qed.

(** A suspension point at which nothing happens to the stream object. *)
Lemma await_quiet {A} (s : Suspension A) (w : World) (self : AirPlayStream) :
  stream w = Some self ->
  _play_task self = None \/ closes_meanwhile s = 0%nat ->
  await s w = (outcome s, w).
Proof.
  intros Hs [Hidle | Hzero]; unfold await.
  - rewrite interfere_without_task; [reflexivity|].
    intros s' Hs'. congruence.
  - rewrite Hzero. reflexivity.
Qed.

Lemma world_eta (w : World) :
  w = {| config := config w; stream := stream w; interfaces := interfaces w;
         tasks_created := tasks_created w; trace := trace w |}.
Proof. destruct w; reflexivity. Qed.

Lemma stream_eta (s : AirPlayStream) :
  s = {| service := service s; _credentials := _credentials s;
         _play_task := _play_task s |}.
Proof. destruct s; reflexivity. Qed.

Section PlayUrlRun.
Context (ext : Externals) (kwargs : gmap string PyValue).
Context (self : AirPlayStream) (svc : Service).
Hypothesis Hsvc : service self = Some svc.
Hypothesis Hquiet : _play_task self = None \/ undisturbed ext.

(** Lines 109-112 on a world that holds [self]. *)
Lemma play_url_play_run (c : HttpConnection) (url : string) (w : World) :
  stream w = Some self ->
  exists v,
    play_url_play ext c url kwargs w
    = (fst (fst (play_url_play_summary ext kwargs url c (tasks_created w))),
       after_play_url w self v
         (snd (fst (play_url_play_summary ext kwargs url c (tasks_created w))))
         (snd (play_url_play_summary ext kwargs url c (tasks_created w)))).
Proof.
  intros Hs. unfold play_url_play, play_url_play_summary. run.
  destruct (py_int ext (default (PyInt 0) (kwargs !! "position"))) as [p|e].
  - unfold ensure_future. run. rewrite Hs. cbn.
    unfold await.
    destruct (closes_meanwhile (player_play_url ext c url p)) as [|k] eqn:Hk.
    + exists (Some (tasks_created w)). cbn.
      unfold after_play_url, with_stream, with_event, with_new_task. cbn.
      reflexivity.
    + exists None.
      erewrite interfere_tracked by (cbn; reflexivity).
      unfold cancelled. cbn.
      unfold after_play_url, with_stream, with_event, with_new_task. cbn.
      rewrite <- app_assoc. reflexivity.
  - exists (_play_task self). cbn.
    unfold after_play_url. cbn. rewrite app_nil_r, <- stream_eta, <- Hs.
    rewrite <- world_eta. reflexivity.
Qed.

Lemma quiet_server_start (x : StaticFileWebServer) :
  _play_task self = None \/ closes_meanwhile (server_start ext x) = 0%nat.
Proof. destruct Hquiet as [H|(H & _)]; [left; exact H | right; apply H]. Qed.

Lemma quiet_http_connect (a : string) (p : Z) :
  _play_task self = None \/ closes_meanwhile (http_connect ext a p) = 0%nat.
Proof. destruct Hquiet as [H|(_ & H & _)]; [left; exact H | right; apply H]. Qed.

Lemma quiet_verify (cr : HapCredentials) (c : HttpConnection) :
  _play_task self = None \/ closes_meanwhile (verify_connection ext cr c) = 0%nat.
Proof. destruct Hquiet as [H|(_ & _ & H & _)]; [left; exact H | right; apply H]. Qed.

(** The [finally] clause after a body that left [after_play_url w self v evs n]. *)
Lemma play_url_finally_after (server : option StaticFileWebServer)
    (connection : option HttpConnection) (w : World) (v : option Task)
    (evs : list Event) (n : nat) :
  play_url_finally ext server connection (after_play_url w self v evs n)
  = (match server with
     | Some s => outcome (server_close ext s)
     | None => Ok tt
     end,
     after_play_url w self None
       (evs ++ match connection with
               | Some c => [EvConnectionClose c]
               | None => []
               end
            ++ match server with
               | Some s => [EvServerClose s]
               | None => []
               end) n).
Proof.
  unfold play_url_finally. run. unfold after_play_url at 1. cbn.
  destruct connection as [c|], server as [sv|]; run.
  1,3: unfold await; rewrite interfere_without_task
    by (cbn; intros s' [= <-]; reflexivity).
  all: unfold after_play_url, with_stream, with_event; cbn.
  all: rewrite <- ?app_assoc, ?app_nil_r; reflexivity.
Qed.

Lemma with_event_as_after (e : Event) (w : World) :
  stream w = Some self ->
  with_event e w = after_play_url w self (_play_task self) [e] 0.
Proof.
  intros Hs. unfold after_play_url, with_event. cbn.
  rewrite <- stream_eta, <- Hs. reflexivity.
Qed.

Lemma with_event_after (e : Event) (w : World) (v : option Task)
    (evs : list Event) (n : nat) :
  with_event e (after_play_url w self v evs n)
  = after_play_url w self v (evs ++ [e]) n.
Proof. unfold after_play_url, with_event. cbn. rewrite <- app_assoc. reflexivity. Qed.

Lemma after_after (w : World) (v1 v2 : option Task) (evs1 evs2 : list Event)
    (n1 n2 : nat) :
  after_play_url (after_play_url w self v1 evs1 n1) self v2 evs2 n2
  = after_play_url w self v2 (evs1 ++ evs2) (n2 + n1).
Proof.
  unfold after_play_url. cbn. rewrite <- app_assoc, Nat.add_assoc. reflexivity.
Qed.

(** The [try] statement as a whole. *)
Lemma play_url_try_finally_run (server : option StaticFileWebServer)
    (url : string) (w : World) :
  stream w = Some self ->
  try_finally (play_url_try ext self url kwargs) (play_url_finally ext server) w
  = (match server with
     | Some s => match outcome (server_close ext s) with
                 | Raise e => Raise e
                 | Ok _ =>
                     fst (fst (play_url_try_summary ext kwargs (_credentials self)
                                 (address (config w)) (port svc) url
                                 (tasks_created w)))
                 end
     | None => fst (fst (play_url_try_summary ext kwargs (_credentials self)
                           (address (config w)) (port svc) url (tasks_created w)))
     end,
     after_play_url w self None
       (snd (fst (play_url_try_summary ext kwargs (_credentials self)
                    (address (config w)) (port svc) url (tasks_created w)))
          ++ match server with
             | Some s => [EvServerClose s]
             | None => []
             end)
       (snd (play_url_try_summary ext kwargs (_credentials self)
               (address (config w)) (port svc) url (tasks_created w)))).
Proof.
  intros Hs. unfold try_finally, play_url_try, play_url_try_summary.
  rewrite Hsvc. run.
  rewrite (await_quiet _ _ self) by (first [exact Hs | apply quiet_http_connect]).
  destruct (outcome (http_connect ext (address (config w)) (port svc))) as [c|e].
  - rewrite (await_quiet _ _ self) by (first [exact Hs | apply quiet_verify]).
    destruct (outcome (verify_connection ext (_credentials self) c)) as [[]|e].
    + destruct (play_url_play_run c url
                  (with_event (EvVerify (_credentials self) c)
                     (with_event (EvHttpConnect (address (config w)) (port svc)) w))
                  Hs) as [v ->].
      cbn [tasks_created with_event].
      destruct (play_url_play_summary ext kwargs url c (tasks_created w))
        as [[r evs] n].
      cbn [fst snd].
      rewrite (with_event_as_after _ w Hs), with_event_after, after_after.
      rewrite play_url_finally_after.
      destruct server as [sv|]; [destruct (outcome (server_close ext sv)) as [[]|e]|];
        cbn; rewrite <- ?app_assoc, ?app_nil_r, ?Nat.add_0_r; reflexivity.
    + rewrite (with_event_as_after _ w Hs), with_event_after.
      rewrite play_url_finally_after.
      destruct server as [sv|]; [destruct (outcome (server_close ext sv)) as [[]|e']|];
        cbn; rewrite <- ?app_assoc, ?app_nil_r; reflexivity.
  - rewrite (with_event_as_after _ w Hs).
    rewrite play_url_finally_after.
    destruct server as [sv|]; [destruct (outcome (server_close ext sv)) as [[]|e']|];
      cbn; rewrite <- ?app_assoc, ?app_nil_r; reflexivity.
Qed.

(** The whole call, for a stream object that has a service. *)
Lemma play_url_run (url : string) (w : World) :
  stream w = Some self ->
  play_url ext url kwargs w
  = (fst (fst (play_url_summary ext kwargs (_credentials self)
                 (address (config w)) (port svc) url (tasks_created w))),
     after_play_url w self
       (if enters_try ext (address (config w)) url then None else _play_task self)
       (snd (fst (play_url_summary ext kwargs (_credentials self)
                    (address (config w)) (port svc) url (tasks_created w))))
       (snd (play_url_summary ext kwargs (_credentials self)
               (address (config w)) (port svc) url (tasks_created w)))).
Proof.
  intros Hs. rewrite (play_url_past_guard ext url kwargs w self svc Hs Hsvc).
  unfold play_url_prepare, play_url_summary, enters_try.
  destruct (path_exists ext url).
  - run.
    rewrite (await_quiet _ _ self) by (first [exact Hs | apply quiet_server_start]).
    set (server := mkStaticFileWebServer url
                     (get_local_address_reaching ext (address (config w)))).
    destruct (outcome (server_start ext server)) as [[]|e].
    + rewrite play_url_try_finally_run by exact Hs.
      cbn [config tasks_created with_event].
      destruct (play_url_try_summary ext kwargs (_credentials self)
                  (address (config w)) (port svc) (file_address ext server)
                  (tasks_created w)) as [[r evs] n].
      cbn [fst snd].
      rewrite (with_event_as_after _ w Hs), after_after.
      rewrite Nat.add_0_r. reflexivity.
    + cbn. rewrite (with_event_as_after _ w Hs). reflexivity.
  - run. rewrite play_url_try_finally_run by exact Hs.
    rewrite app_nil_r. reflexivity.
Qed.

End PlayUrlRun.

(** At most one task per call. *)
Lemma play_url_summary_tasks (ext : Externals) (kwargs : gmap string PyValue)
    (creds : HapCredentials) (addr : string) (p : Z) (url : string) (t : Task) :
  (snd (play_url_summary ext kwargs creds addr p url t) <= 1)%nat.
Proof.
  assert (Hplay : forall u c,
             (snd (play_url_play_summary ext kwargs u c t) <= 1)%nat).
  { intros u c. unfold play_url_play_summary.
    destruct (py_int ext _); cbn; lia. }
  assert (Htry : forall u,
             (snd (play_url_try_summary ext kwargs creds addr p u t) <= 1)%nat).
  { intros u. unfold play_url_try_summary.
    destruct (outcome (http_connect ext addr p)) as [c|]; [|cbn; lia].
    destruct (outcome (verify_connection ext creds c)); [|cbn; lia].
    specialize (Hplay u c).
    destruct (play_url_play_summary ext kwargs u c t) as [[r evs] n]. exact Hplay. }
  unfold play_url_summary. destruct (path_exists ext url); [|apply Htry].
  destruct (outcome (server_start ext _)); [|cbn; lia].
  match goal with
  | |- context [play_url_try_summary ext kwargs creds addr p ?u t] =>
      specialize (Htry u);
      destruct (play_url_try_summary ext kwargs creds addr p u t) as [[r evs] n]
  end.
  exact Htry.
Qed.

(** [play_url] on a stream object that tracks no task. *)
Lemma play_url_run_idle
    (ext : Externals) (url : string) (kwargs : gmap string PyValue)
    (w : World) (self : AirPlayStream) (svc : Service) :
  stream w = Some self ->
  service self = Some svc ->
  _play_task self = None ->
  play_url ext url kwargs w
  = (fst (fst (play_url_summary ext kwargs (_credentials self)
                 (address (config w)) (port svc) url (tasks_created w))),
     after_play_url w self None
       (snd (fst (play_url_summary ext kwargs (_credentials self)
                    (address (config w)) (port svc) url (tasks_created w))))
       (snd (play_url_summary ext kwargs (_credentials self)
               (address (config w)) (port svc) url (tasks_created w)))).
Proof.
  intros Hs Hsvc Hidle.
  rewrite (play_url_run ext kwargs self svc Hsvc (or_introl Hidle) url w Hs).
  rewrite Hidle. destruct (enters_try _ _ _); reflexivity.
Qed.

(** X1. On a stream object that tracks no task, a [play_url] call is
    determined by the outcomes of the operations it awaits: its result is
    that of the first failing step (else the player's), unless closing the
    web server raises; the calls are made in one fixed order; the
    configuration and the registrations are untouched, the slot is empty
    again, and at most one task was created. *)
Theorem play_url_idle_summary
    (ext : Externals) (url : string) (kwargs : gmap string PyValue)
    (w : World) (self : AirPlayStream) (svc : Service) :
  stream w = Some self ->
  service self = Some svc ->
  _play_task self = None ->
  play_url ext url kwargs w
  = (fst (fst (play_url_summary ext kwargs (_credentials self)
                 (address (config w)) (port svc) url (tasks_created w))),
     after_play_url w self None
       (snd (fst (play_url_summary ext kwargs (_credentials self)
                    (address (config w)) (port svc) url (tasks_created w))))
       (snd (play_url_summary ext kwargs (_credentials self)
               (address (config w)) (port svc) url (tasks_created w)))) /\
  (snd (play_url_summary ext kwargs (_credentials self)
          (address (config w)) (port svc) url (tasks_created w)) <= 1)%nat.
Proof.
  intros Hs Hsvc Hidle. split.
  - apply play_url_run_idle; assumption.
  - apply play_url_summary_tasks.
Qed.

Lemma play_url_idle_summary_witness :
  play_url example_externals_busy "/media/clip.mp4" ∅ example_stream_world
  = (Raise (OtherException 7),
     {| config := example_config;
        stream := Some {| service := Some example_service;
                          _credentials := example_credentials;
                          _play_task := None |};
        interfaces := []; tasks_created := 1;
        trace := [EvServerStart (mkStaticFileWebServer "/media/clip.mp4" "10.0.0.1");
                  EvHttpConnect "10.0.0.2" 7000;
                  EvVerify example_credentials 5%nat;
                  EvEnsureFuture 0%nat 5%nat "http://10.0.0.1:8000/clip.mp4" 0;
                  EvTaskCancel 0%nat;
                  EvConnectionClose 5%nat;
                  EvServerClose (mkStaticFileWebServer "/media/clip.mp4" "10.0.0.1")] |}) /\
  (1 <= 1)%nat.
Proof.
  exact (play_url_idle_summary example_externals_busy "/media/clip.mp4" ∅
           example_stream_world
           {| service := Some example_service;
              _credentials := example_credentials; _play_task := None |}
           example_service eq_refl eq_refl eq_refl).
Defined.

(** X2. When starting the web server for a local file raises, that
    exception leaves [play_url] as it is; no connection is attempted, and
    the server is not closed: the call sits before the [try] statement. *)
Theorem play_url_server_start_failure
    (ext : Externals) (url : string) (kwargs : gmap string PyValue)
    (w : World) (self : AirPlayStream) (svc : Service) (e : exn) :
  stream w = Some self ->
  service self = Some svc ->
  _play_task self = None ->
  path_exists ext url = true ->
  outcome (server_start ext
             (mkStaticFileWebServer url
                (get_local_address_reaching ext (address (config w))))) = Raise e ->
  play_url ext url kwargs w
  = (Raise e,
     with_event
       (EvServerStart
          (mkStaticFileWebServer url
             (get_local_address_reaching ext (address (config w))))) w).
Proof.
  intros Hs Hsvc Hidle Hex Hstart.
  rewrite (play_url_run ext kwargs self svc Hsvc (or_introl Hidle) url w Hs).
  unfold play_url_summary, enters_try. rewrite Hex, Hstart. cbn.
  rewrite (with_event_as_after self _ w Hs). reflexivity.
Qed.

Lemma play_url_server_start_failure_witness :
  play_url example_externals_no_server "/media/clip.mp4" ∅ example_stream_world
  = (Raise (OtherException 98),
     with_event (EvServerStart (mkStaticFileWebServer "/media/clip.mp4" "10.0.0.1"))
       example_stream_world).
Proof.
  exact (play_url_server_start_failure example_externals_no_server
           "/media/clip.mp4" ∅ example_stream_world
           {| service := Some example_service;
              _credentials := example_credentials; _play_task := None |}
           example_service (OtherException 98)
           eq_refl eq_refl eq_refl eq_refl eq_refl).
Defined.

(** X3. When the web server was started and closing it in the [finally]
    clause raises, that exception is what [play_url] raises, whatever the
    connection, the verification or the player did before. *)
Theorem play_url_server_close_failure_masks
    (ext : Externals) (url : string) (kwargs : gmap string PyValue)
    (w : World) (self : AirPlayStream) (svc : Service) (e : exn) :
  stream w = Some self ->
  service self = Some svc ->
  _play_task self = None ->
  path_exists ext url = true ->
  outcome (server_start ext
             (mkStaticFileWebServer url
                (get_local_address_reaching ext (address (config w))))) = Ok tt ->
  outcome (server_close ext
             (mkStaticFileWebServer url
                (get_local_address_reaching ext (address (config w))))) = Raise e ->
  fst (play_url ext url kwargs w) = Raise e.
Proof.
  intros Hs Hsvc Hidle Hex Hstart Hclose.
  rewrite (play_url_run ext kwargs self svc Hsvc (or_introl Hidle) url w Hs).
  unfold play_url_summary. rewrite Hex, Hstart, Hclose. cbn.
  destruct (play_url_try_summary _ _ _ _ _ _ _) as [[r evs] n]. reflexivity.
Qed.

Lemma play_url_server_close_failure_masks_witness :
  fst (play_url example_externals_busy "/media/clip.mp4" ∅ example_stream_world)
  = Raise (OtherException 7).
Proof.
  exact (play_url_server_close_failure_masks example_externals_busy
           "/media/clip.mp4" ∅ example_stream_world
           {| service := Some example_service;
              _credentials := example_credentials; _play_task := None |}
           example_service (OtherException 7)
           eq_refl eq_refl eq_refl eq_refl eq_refl eq_refl).
Defined.

(** X4. On a stream object that tracks no task, each resource is handled
    once: one connection attempt when the [try] statement is reached, one
    [close()] of the connection exactly when [http_connect] returned one,
    one start of the web server exactly for a local file and one close of it
    exactly when it was started, and at most one start of the player. *)
Theorem play_url_releases_exactly_once
    (ext : Externals) (url : string) (kwargs : gmap string PyValue)
    (w : World) (self : AirPlayStream) (svc : Service) :
  stream w = Some self ->
  service self = Some svc ->
  _play_task self = None ->
  exists evs,
    trace (snd (play_url ext url kwargs w)) = trace w ++ evs /\
    occurrences is_http_connect evs
    = (if enters_try ext (address (config w)) url then 1 else 0)%nat /\
    occurrences is_connection_close evs
    = (if enters_try ext (address (config w)) url
       then match outcome (http_connect ext (address (config w)) (port svc)) with
            | Ok _ => 1
            | Raise _ => 0
            end
       else 0)%nat /\
    occurrences is_server_start evs
    = (if path_exists ext url then 1 else 0)%nat /\
    occurrences is_server_close evs
    = (if path_exists ext url
       then if enters_try ext (address (config w)) url then 1 else 0
       else 0)%nat /\
    (occurrences is_ensure_future evs <= 1)%nat.
Proof.
  intros Hs Hsvc Hidle.
  rewrite (play_url_run_idle ext url kwargs w self svc Hs Hsvc Hidle).
  eexists. split; [reflexivity|].
  unfold play_url_summary, play_url_try_summary, play_url_play_summary,
    enters_try, occurrences.
  destruct (path_exists ext url);
    [destruct (outcome (server_start ext _)) as [[]|]|];
    try (cbn; repeat split; lia).
  all: destruct (outcome (http_connect ext _ _)) as [c|];
    [destruct (outcome (verify_connection ext _ c)) as [[]|];
     [destruct (py_int ext _) as [p|];
      [destruct (closes_meanwhile (player_play_url ext c _ p))|]|]|].
  all: cbn; repeat split; lia.
Qed.

Lemma play_url_releases_exactly_once_witness :
  exists evs,
    trace (snd (play_url example_externals_busy "/media/clip.mp4" ∅
                  example_stream_world)) = [] ++ evs /\
    occurrences is_http_connect evs = 1%nat /\
    occurrences is_connection_close evs = 1%nat /\
    occurrences is_server_start evs = 1%nat /\
    occurrences is_server_close evs = 1%nat /\
    (occurrences is_ensure_future evs <= 1)%nat.
Proof.
  exact (play_url_releases_exactly_once example_externals_busy
           "/media/clip.mp4" ∅ example_stream_world
           {| service := Some example_service;
              _credentials := example_credentials; _play_task := None |}
           example_service eq_refl eq_refl eq_refl).
Defined.

(** X5. A [close()] that arrives before the player task exists (while the
    web server starts, the connection is made or verified) does not stop the
    call: once connection, verification and the conversion of the position
    succeed, the player is started, on the web server's address for a local
    file and on the url itself otherwise.  A task is cancelled exactly when
    [close()] arrives while the player is awaited, and it is the task of
    this call. *)
Theorem play_url_close_cancels_only_during_playback
    (ext : Externals) (url : string) (kwargs : gmap string PyValue)
    (w : World) (self : AirPlayStream) (svc : Service)
    (c : HttpConnection) (p : Z) :
  stream w = Some self ->
  service self = Some svc ->
  _play_task self = None ->
  enters_try ext (address (config w)) url = true ->
  outcome (http_connect ext (address (config w)) (port svc)) = Ok c ->
  outcome (verify_connection ext (_credentials self) c) = Ok tt ->
  py_int ext (default (PyInt 0) (kwargs !! "position")) = Ok p ->
  exists evs,
    trace (snd (play_url ext url kwargs w)) = trace w ++ evs /\
    (EvEnsureFuture (tasks_created w) c
       (played_url ext (address (config w)) url) p ∈ evs) /\
    (forall t,
        EvTaskCancel t ∈ evs
        <-> t = tasks_created w /\
            closes_meanwhile
              (player_play_url ext c (played_url ext (address (config w)) url) p)
            <> 0%nat).
Proof.
  intros Hs Hsvc Hidle Henter Hconn Hver Hint.
  rewrite (play_url_run_idle ext url kwargs w self svc Hs Hsvc Hidle).
  eexists. split; [reflexivity|].
  unfold play_url_summary, play_url_try_summary, play_url_play_summary,
    played_url, enters_try in *.
  destruct (path_exists ext url);
    [destruct (outcome (server_start ext _)) as [[]|]; [|discriminate]|];
    rewrite Hconn, Hver, Hint;
    destruct (closes_meanwhile (player_play_url ext c _ p)); cbn.
  all: split; [set_solver|].
  all: intros t; split;
    [ intros Hin; repeat (apply elem_of_cons in Hin as [Hin|Hin]; try discriminate);
      try (apply elem_of_nil in Hin; contradiction);
      try (injection Hin as ->; split; [reflexivity | discriminate])
    | intros [-> Hne]; try (exfalso; apply Hne; reflexivity); set_solver ].
Qed.

Lemma play_url_close_cancels_only_during_playback_witness :
  exists evs,
    trace (snd (play_url example_externals_busy "/media/clip.mp4" ∅
                  example_stream_world)) = [] ++ evs /\
    (EvEnsureFuture 0%nat 5%nat "http://10.0.0.1:8000/clip.mp4" 0 ∈ evs) /\
    (forall t, EvTaskCancel t ∈ evs <-> t = 0%nat /\ 1%nat <> 0%nat).
Proof.
  exact (play_url_close_cancels_only_during_playback example_externals_busy
           "/media/clip.mp4" ∅ example_stream_world
           {| service := Some example_service;
              _credentials := example_credentials; _play_task := None |}
           example_service 5%nat 0
           eq_refl eq_refl eq_refl eq_refl eq_refl eq_refl eq_refl).
Defined.



(** The other case: the web server cannot be started, the earlier task
    stays in the slot. *)
Example play_url_keeps_earlier_task_when_server_fails :
  play_task_slot
    (snd (play_url example_externals_no_server "/media/clip.mp4" ∅
            example_tracking_world)) = Some (Some 9%nat).
Proof. reflexivity. Qed.

(** ** [setup], step by step *)

(** X7. The first [next] on the generator constructs the stream object,
    with no task tracked and the credentials parsed from the service, and
    registers the feature and stream interfaces for AirPlay, in this order
    and before the primary descriptor is yielded; nothing is called on the
    device and the configuration is not changed. *)
Theorem setup_registers_before_first_yield
    (ext : Externals) (w : World) (svc : Service) :
  get_service (config w) AirPlay = Some svc ->
  exists d w1,
    setup_next ext Created w = (Ok (Some d), AtPrimaryYield svc, w1) /\
    features d = {[PlayUrl]} /\
    interfaces w1
    = interfaces w ++ [RegFeatures (mkAirPlayFeatures svc) AirPlay;
                       RegStream AirPlay] /\
    stream w1 = Some {| service := Some svc;
                        _credentials := parse_credentials ext (credentials svc);
                        _play_task := None |} /\
    trace w1 = trace w /\
    tasks_created w1 = tasks_created w /\
    config w1 = config w.
Proof.
  intros Hsvc. eexists primary_descriptor, _. cbn [setup_next].
  rewrite (setup_to_primary_run ext w svc Hsvc).
  split; [reflexivity|]. split; [reflexivity|]. split.
  { cbn. rewrite <- app_assoc. reflexivity. }
  repeat split.
Qed.

Lemma setup_registers_before_first_yield_witness :
  exists d w1,
    setup_next (example_externals (Ok tt) (Ok tt) (Ok tt) (mkSuspension 0 (Ok tt)))
      Created (example_world example_config)
    = (Ok (Some d), AtPrimaryYield example_service, w1) /\
    features d = {[PlayUrl]} /\
    interfaces w1 = [RegFeatures (mkAirPlayFeatures example_service) AirPlay;
                     RegStream AirPlay] /\
    stream w1 = Some {| service := Some example_service;
                        _credentials := example_credentials;
                        _play_task := None |} /\
    trace w1 = [] /\
    tasks_created w1 = 0%nat /\
    config w1 = example_config.
Proof.
  exact (setup_registers_before_first_yield
           (example_externals (Ok tt) (Ok tt) (Ok tt) (mkSuspension 0 (Ok tt)))
           (example_world example_config) example_service eq_refl).
Defined.

(** An exhausted or fully consumed generator: [next] changes nothing. *)
Lemma setup_next_n_finished (ext : Externals) (n : nat) (w : World) :
  setup_next_n ext n Finished w = (Finished, w).
Proof. induction n as [|n IH]; cbn; [reflexivity | exact IH]. Qed.

Lemma setup_next_n_at_secondary (ext : Externals) (n : nat) (w : World) :
  snd (setup_next_n ext n AtSecondaryYield w) = w.
Proof.
  destruct n as [|n]; cbn; [reflexivity|].
  rewrite setup_next_n_finished. reflexivity.
Qed.

(** X8. For a configuration without an AirPlay service the first [next]
    raises [AssertionError] before anything is constructed or registered:
    the world is unchanged, the generator is finished, and every later
    [next] is a [StopIteration] that changes nothing either. *)
Theorem setup_without_service_asserts
    (ext : Externals) (w : World) (n : nat) :
  get_service (config w) AirPlay = None ->
  setup_next ext Created w = (Raise AssertionError, Finished, w) /\
  setup_next ext Finished w = (Ok None, Finished, w) /\
  setup_next_n ext n Created w = (match n with O => Created | S _ => Finished end, w) /\
  setup_all ext (S n) w = Some (Raise AssertionError, w).
Proof.
  intros Hsvc.
  assert (Hfirst : setup_next ext Created w = (Raise AssertionError, Finished, w)).
  { cbn [setup_next]. rewrite (setup_to_primary_no_service ext w Hsvc). reflexivity. }
  split; [exact Hfirst|]. split; [reflexivity|]. split.
  - destruct n as [|n]; [reflexivity|]. cbn [setup_next_n]. rewrite Hfirst.
    apply setup_next_n_finished.
  - unfold setup_all. cbn [collect]. rewrite Hfirst. reflexivity.
Qed.

Lemma setup_without_service_asserts_witness :
  setup_next (example_externals (Ok tt) (Ok tt) (Ok tt) (mkSuspension 0 (Ok tt)))
    Created (example_world example_config_mrp_only)
  = (Raise AssertionError, Finished, example_world example_config_mrp_only) /\
  setup_next (example_externals (Ok tt) (Ok tt) (Ok tt) (mkSuspension 0 (Ok tt)))
    Finished (example_world example_config_mrp_only)
  = (Ok None, Finished, example_world example_config_mrp_only) /\
  setup_next_n (example_externals (Ok tt) (Ok tt) (Ok tt) (mkSuspension 0 (Ok tt)))
    4 Created (example_world example_config_mrp_only)
  = (Finished, example_world example_config_mrp_only) /\
  setup_all (example_externals (Ok tt) (Ok tt) (Ok tt) (mkSuspension 0 (Ok tt)))
    5 (example_world example_config_mrp_only)
  = Some (Raise AssertionError, example_world example_config_mrp_only).
Proof.
  exact (setup_without_service_asserts
           (example_externals (Ok tt) (Ok tt) (Ok tt) (mkSuspension 0 (Ok tt)))
           (example_world example_config_mrp_only) 4 eq_refl).
Defined.

(** X9. The generator cannot be restarted: whatever the configuration, the
    world after any number of [next] calls beyond the second is the world
    after the second, so the placeholder service is added at most once. *)
Theorem setup_next_beyond_exhaustion (ext : Externals) (w : World) (k : nat) :
  snd (setup_next_n ext (2 + k) Created w) = snd (setup_next_n ext 2 Created w) /\
  (length (services (config (snd (setup_next_n ext (2 + k) Created w))))
   <= S (length (services (config w))))%nat.
Proof.
  cbn [Nat.add setup_next_n setup_next].
  destruct (get_service (config w) AirPlay) as [svc|] eqn:Hsvc.
  - rewrite (setup_to_primary_run ext w svc Hsvc).
    cbn [setup_next_n setup_next]. rewrite setup_to_secondary_run.
    destruct (bridge_eligible _ _).
    + rewrite setup_next_n_at_secondary. cbn.
      rewrite !length_app. cbn. split; [reflexivity | lia].
    + rewrite setup_next_n_finished. cbn. split; [reflexivity | lia].
  - rewrite (setup_to_primary_no_service ext w Hsvc).
    cbn [setup_next_n setup_next].
    rewrite setup_next_n_finished. cbn. split; [reflexivity | lia].
Qed.

(** Closing the secondary descriptor calls the MRP close and then the
    stop of the remote control channel, whether or not connect was ever
    called, and returns the tasks of both: a task is in the result exactly
    when one of the two returned it. *)
Lemma close_rc_returns_both_task_sets (ext : Externals) (svc : Service) (w : World) :
  close (secondary_descriptor ext svc) w
  = (Ok (mrp_close ext ∪ control_stop ext),
     with_event EvControlStop (with_event EvMrpClose w)) /\
  (forall t : Task,
      t ∈ mrp_close ext ∪ control_stop ext
      <-> t ∈ mrp_close ext \/ t ∈ control_stop ext).
Proof.
  split.
  - cbn [close secondary_descriptor]. unfold _close_rc. run.
    rewrite (left_id_L ∅ (∪)). reflexivity.
  - intros t. apply elem_of_union.
Qed.

(** X10. When the channel start and the MRP connect both return, the
    secondary descriptor's connect returns normally; the channel is started
    first, on the address the configuration holds at that moment, with the
    port of the AirPlay service and the credentials extracted at set-up;
    the MRP connect follows, nothing is logged and the configuration is
    untouched. *)
Theorem connect_rc_starts_channel_then_mrp
    (ext : Externals) (svc : Service) (w : World) :
  outcome (control_start ext (address (config w)) (port svc)
             (extract_credentials ext svc)) = Ok tt ->
  outcome (mrp_connect ext) = Ok tt ->
  exists w' evs,
    connect (secondary_descriptor ext svc) w = (Ok tt, w') /\
    trace w' = trace w
               ++ EvControlStart (address (config w)) (port svc)
                    (extract_credentials ext svc) :: evs /\
    (EvMrpConnect ∈ evs) /\
    (forall e, EvLogException e ∉ evs) /\
    config w' = config w.
Proof.
  intros Hstart Hmrp. cbn [connect secondary_descriptor].
  unfold _connect_rc, try_except_Exception_else. run.
  destruct (await_after_event
              (control_start ext (address (config w)) (port svc)
                 (extract_credentials ext svc))
              (EvControlStart (address (config w)) (port svc)
                 (extract_credentials ext svc)) w)
    as (evs & -> & Htr & Hc).
  rewrite Hstart.
  match goal with
  | |- context [await (mrp_connect ext) (with_event EvMrpConnect ?w1)] =>
      destruct (await_after_event (mrp_connect ext) EvMrpConnect w1)
        as (evs2 & -> & Htr2 & Hc2)
  end.
  rewrite Hmrp. eexists _, (evs ++ EvMrpConnect :: evs2).
  split; [reflexivity|]. rewrite Htr2, Htr. split.
  { rewrite <- app_assoc. reflexivity. }
  split; [|split].
  - apply elem_of_app. right. apply elem_of_cons. left. reflexivity.
  - intros e Hin. apply elem_of_app in Hin as [Hin|Hin].
    + apply Hc in Hin as [t Ht]. discriminate.
    + apply elem_of_cons in Hin as [Hin|Hin]; [discriminate|].
      apply Hc2 in Hin as [t Ht]. discriminate.
  - rewrite interfere_config. cbn [config with_event].
    rewrite interfere_config. reflexivity.
Qed.

Lemma connect_rc_starts_channel_then_mrp_witness :
  exists w' evs,
    connect (secondary_descriptor example_externals_busy example_service)
      example_tracking_world = (Ok tt, w') /\
    trace w' = [] ++ EvControlStart "10.0.0.2" 7000 example_credentials :: evs /\
    (EvMrpConnect ∈ evs) /\
    (forall e, EvLogException e ∉ evs) /\
    config w' = example_config.
Proof.
  exact (connect_rc_starts_channel_then_mrp example_externals_busy
           example_service example_tracking_world eq_refl eq_refl).
Defined.

(** * The release script *)

Local Infix "+++" := String.append (right associativity, at level 60).

(** ** Splitting and joining lines *)

Lemma append_nil_l (s : string) : EmptyString +++ s = s.
Proof. reflexivity. Qed.

Lemma append_cons (c : Ascii.ascii) (a s : string) :
  String c a +++ s = String c (a +++ s).
Proof. reflexivity. Qed.

Lemma split_nonempty (sep : Ascii.ascii) (s : string) :
  Release.split sep s <> [].
Proof.
  induction s as [|c s IH]; cbn [Release.split]; [discriminate|].
  destruct (Ascii.eqb c sep); [discriminate|].
  destruct (Release.split sep s); [contradiction | discriminate].
Qed.

(** A piece without the separator, followed by the separator, is the first
    element of the split. *)
Lemma split_first (sep : Ascii.ascii) (a b : string) :
  Release.free_of sep a = true ->
  Release.split sep (a +++ String sep b) = a :: Release.split sep b.
Proof.
  induction a as [|c a IH]; rewrite ?append_nil_l, ?append_cons;
    cbn [Release.split Release.free_of]; intros Hfree.
  - rewrite Ascii.eqb_refl. reflexivity.
  - apply andb_true_iff in Hfree as [Hc Ha].
    apply negb_true_iff in Hc. rewrite Hc, (IH Ha). reflexivity.
Qed.

Lemma split_free (sep : Ascii.ascii) (a : string) :
  Release.free_of sep a = true -> Release.split sep a = [a].
Proof.
  induction a as [|c a IH]; cbn [Release.split Release.free_of];
    intros Hfree; [reflexivity|].
  apply andb_true_iff in Hfree as [Hc Ha].
  apply negb_true_iff in Hc. rewrite Hc, (IH Ha). reflexivity.
Qed.

(** The elements of a split do not hold the separator. *)
Lemma split_elements_free (sep : Ascii.ascii) (s : string) :
  Forall (fun line => Release.free_of sep line = true) (Release.split sep s).
Proof.
  induction s as [|c s IH]; cbn [Release.split]; [repeat constructor|].
  destruct (Ascii.eqb c sep) eqn:Hc; [constructor; [reflexivity | exact IH]|].
  destruct (Release.split sep s) as [|first others];
    [repeat constructor; cbn [Release.free_of]; rewrite Hc; reflexivity|].
  inversion IH as [|? ? Hfirst Hothers]; subst.
  constructor; [cbn [Release.free_of]; rewrite Hc, Hfirst; reflexivity
               | exact Hothers].
Qed.

(** Splitting what was joined gives the parts back. *)
Lemma split_join (sep : Ascii.ascii) (parts : list string) :
  parts <> [] ->
  Forall (fun line => Release.free_of sep line = true) parts ->
  Release.split sep (Release.join (String sep EmptyString) parts) = parts.
Proof.
  induction parts as [|a parts IH]; [contradiction|]. intros _ Hall.
  inversion Hall as [|? ? Ha Hparts]; subst.
  destruct parts as [|b parts].
  - cbn. apply split_free, Ha.
  - change (Release.join (String sep EmptyString) (a :: b :: parts))
      with (a +++ String sep EmptyString
              +++ Release.join (String sep EmptyString) (b :: parts)).
    change (String sep EmptyString +++ ?x) with (String sep x).
    rewrite (split_first sep a _ Ha), IH; [reflexivity | discriminate | exact Hparts].
Qed.

Lemma append_assoc (a b c : string) : a +++ (b +++ c) = (a +++ b) +++ c.
Proof.
  induction a as [|x a IH]; rewrite ?append_nil_l, ?append_cons; [reflexivity|].
  rewrite IH. reflexivity.
Qed.

Lemma prefix_append (a b : string) : String.prefix a (a +++ b) = true.
Proof.
  induction a as [|c a IH]; rewrite ?append_nil_l, ?append_cons; cbn.
  - destruct b; reflexivity.
  - destruct (Ascii.ascii_dec c c); [exact IH | contradiction].
Qed.

Lemma contains_middle (needle a b : string) :
  Release.contains needle (a +++ needle +++ b) = true.
Proof.
  induction a as [|c a IH].
  - rewrite append_nil_l. destruct (needle +++ b) eqn:Hnb.
    + cbn [Release.contains]. rewrite <- Hnb, prefix_append. reflexivity.
    + cbn [Release.contains]. rewrite <- Hnb, prefix_append. reflexivity.
  - rewrite append_cons. cbn [Release.contains]. rewrite IH. apply orb_true_r.
Qed.

Lemma contains_here (needle b : string) :
  Release.contains needle (needle +++ b) = true.
Proof. apply (contains_middle needle EmptyString b). Qed.

Lemma contains_skip (needle a b : string) :
  Release.contains needle b = true ->
  Release.contains needle (a +++ b) = true.
Proof.
  intros Hb. induction a as [|c a IH]; rewrite ?append_nil_l, ?append_cons;
    [exact Hb|].
  cbn [Release.contains]. rewrite IH. apply orb_true_r.
Qed.

Lemma length_times_one (c : Ascii.ascii) (n : nat) :
  String.length (Release.times (String c EmptyString) n) = n.
Proof.
  induction n as [|n IH]; cbn [Release.times]; [reflexivity|].
  rewrite append_cons, append_nil_l. cbn [String.length]. rewrite IH. reflexivity.
Qed.

Lemma free_of_append (c : Ascii.ascii) (a b : string) :
  Release.free_of c (a +++ b) = Release.free_of c a && Release.free_of c b.
Proof.
  induction a as [|x a IH]; rewrite ?append_nil_l, ?append_cons;
    cbn [Release.free_of]; [reflexivity|].
  rewrite IH, andb_assoc. reflexivity.
Qed.

Lemma free_of_times (c x : Ascii.ascii) (n : nat) :
  Ascii.eqb x c = false ->
  Release.free_of c (Release.times (String x EmptyString) n) = true.
Proof.
  intros Hx. induction n as [|n IH]; cbn [Release.times];
    rewrite ?append_cons, ?append_nil_l; cbn [Release.free_of]; [reflexivity|].
  rewrite Hx, IH. reflexivity.
Qed.

(** ** [insert_changes] and [verify_changes] *)

Lemma split_line (a b : string) :
  Release.free_of Release.LF a = true ->
  Release.split Release.LF (a +++ Release.nl +++ b)
  = a :: Release.split Release.LF b.
Proof. apply split_first. Qed.

Lemma split_empty_line (b : string) :
  Release.split Release.LF (Release.nl +++ b)
  = EmptyString :: Release.split Release.LF b.
Proof. apply (split_first Release.LF EmptyString b). reflexivity. Qed.

(** The lines of a file that starts with the filled-in template. *)
Lemma template_lines (heading underline rest : string) :
  Release.free_of Release.LF heading = true ->
  Release.free_of Release.LF underline = true ->
  Release.split Release.LF (Release.CHANGES_TEMPLATE heading underline +++ rest)
  = ["CHANGES"; "======="; ""; heading; underline; ""; "Changes:"; "";
     "REMOVE ME"; ""; "Notes:"; ""; "REMOVE ME"; ""]
    ++ Release.split Release.LF rest.
Proof.
  intros Hh Hu. unfold Release.CHANGES_TEMPLATE.
  repeat rewrite <- append_assoc.
  repeat first
    [ rewrite split_line by (first [exact Hh | exact Hu | reflexivity])
    | rewrite split_empty_line ].
  reflexivity.
Qed.

Lemma heading_free (version date : string) :
  Release.free_of Release.LF version = true ->
  Release.free_of Release.LF date = true ->
  Release.free_of Release.LF (version +++ " (" +++ date +++ ")") = true.
Proof.
  intros Hv Hd. rewrite !free_of_append, Hv, Hd. reflexivity.
Qed.

(** What [insert_changes] writes when the entry is not there yet. *)
Lemma insert_changes_run (host : Release.Host) (version text line : string)
    (env : Release.Env) :
  Release.files env !! "CHANGES.rst" = Some text ->
  Release.split Release.LF text !! 3%nat = Some line ->
  Release.startswith line version = false ->
  Release.insert_changes host version env
  = (Release.Return tt,
     {| Release.files :=
          <["CHANGES.rst" :=
              Release.CHANGES_TEMPLATE
                (version +++ " (" +++ Release.today host +++ ")")
                (Release.times "="
                   (String.length (version +++ " (" +++ Release.today host +++ ")")))
              +++ Release.join Release.nl (drop 3 (Release.split Release.LF text))]>
            (Release.files env);
        Release.commands := Release.commands env;
        Release.errors := Release.errors env |}).
Proof.
  intros Hfile Hline Hstart.
  unfold Release.insert_changes, mbind, Release.Script_bind, Release.read_text,
    Release.item.
  rewrite Hfile, Hline. cbn. rewrite Hstart. reflexivity.
Qed.

(** The old lines from the fourth on, as the new file holds them. *)
Lemma kept_lines (text line : string) :
  Release.split Release.LF text !! 3%nat = Some line ->
  Release.split Release.LF
    (Release.join Release.nl (drop 3 (Release.split Release.LF text)))
  = drop 3 (Release.split Release.LF text).
Proof.
  intros Hline. apply split_join.
  - intros Hnil. apply (f_equal length) in Hnil. rewrite length_drop in Hnil.
    apply lookup_lt_Some in Hline. cbn in Hnil. lia.
  - apply Forall_drop, split_elements_free.
Qed.

(** X12. When line four of [CHANGES.rst] does not start with the version,
    [insert_changes] rewrites the file: the first three lines are replaced by
    the fixed title, a heading made of the version and the date follows,
    underlined by as many [=] as the heading is long, then the two
    [REMOVE ME] placeholders, and then every old line from the fourth on,
    unchanged.  No other file is touched and no command is run. *)
Theorem insert_changes_prepends_entry
    (host : Release.Host) (version text line : string) (env : Release.Env) :
  Release.files env !! "CHANGES.rst" = Some text ->
  Release.split Release.LF text !! 3%nat = Some line ->
  Release.startswith line version = false ->
  Release.free_of Release.LF version = true ->
  Release.free_of Release.LF (Release.today host) = true ->
  exists text' underline,
    Release.insert_changes host version env
    = (Release.Return tt,
       {| Release.files := <["CHANGES.rst" := text']> (Release.files env);
          Release.commands := Release.commands env;
          Release.errors := Release.errors env |}) /\
    Release.split Release.LF text'
    = ["CHANGES"; "======="; "";
       version +++ " (" +++ Release.today host +++ ")"; underline; "";
       "Changes:"; ""; "REMOVE ME"; ""; "Notes:"; ""; "REMOVE ME"; ""]
      ++ drop 3 (Release.split Release.LF text) /\
    underline
    = Release.times "="
        (String.length (version +++ " (" +++ Release.today host +++ ")")) /\
    String.length underline
    = String.length (version +++ " (" +++ Release.today host +++ ")").
Proof.
  intros Hfile Hline Hstart Hv Hd. eexists _, _.
  split; [apply (insert_changes_run host version text line env Hfile Hline Hstart)|].
  split; [|split; [reflexivity | apply length_times_one]].
  rewrite template_lines.
  - rewrite (kept_lines text line Hline). reflexivity.
  - apply heading_free; assumption.
  - apply free_of_times. reflexivity.
Qed.

Lemma insert_changes_prepends_entry_witness :
  exists text' underline,
    Release.insert_changes Release.example_host "0.8.0" Release.example_env
    = (Release.Return tt,
       {| Release.files :=
            <["CHANGES.rst" := text']> (Release.files Release.example_env);
          Release.commands := []; Release.errors := [] |}) /\
    Release.split Release.LF text'
    = ["CHANGES"; "======="; ""; "0.8.0 (2021-02-03)"; underline; "";
       "Changes:"; ""; "REMOVE ME"; ""; "Notes:"; ""; "REMOVE ME"; ""]
      ++ ["0.7.0 (2020-01-01)"; "=================="; ""; "Changes:"; "";
          "* something"; ""] /\
    underline = "==================" /\
    String.length underline = 18%nat.
Proof.
  exact (insert_changes_prepends_entry Release.example_host "0.8.0"
           Release.example_changes "0.7.0 (2020-01-01)" Release.example_env
           eq_refl eq_refl eq_refl eq_refl eq_refl).
Defined.

(** X13. [insert_changes] is idempotent: after a run that returned, a
    second run for the same version, on whatever date, finds the entry and
    leaves everything as it is. *)
Theorem insert_changes_idempotent
    (host host' : Release.Host) (version : string) (env env1 : Release.Env) :
  Release.free_of Release.LF version = true ->
  Release.free_of Release.LF (Release.today host) = true ->
  Release.insert_changes host version env = (Release.Return tt, env1) ->
  Release.insert_changes host' version env1 = (Release.Return tt, env1).
Proof.
  intros Hv Hd Hrun.
  destruct (Release.files env !! "CHANGES.rst") as [text|] eqn:Hfile.
  2: { unfold Release.insert_changes, mbind, Release.Script_bind,
         Release.read_text in Hrun. rewrite Hfile in Hrun. discriminate. }
  destruct (Release.split Release.LF text !! 3%nat) as [line|] eqn:Hline.
  2: { unfold Release.insert_changes, mbind, Release.Script_bind,
         Release.read_text, Release.item in Hrun.
       rewrite Hfile, Hline in Hrun. discriminate. }
  destruct (Release.startswith line version) eqn:Hstart.
  - assert (Hsame : env1 = env).
    { unfold Release.insert_changes, mbind, Release.Script_bind,
        Release.read_text, Release.item in Hrun.
      rewrite Hfile, Hline in Hrun. cbn in Hrun. rewrite Hstart in Hrun.
      injection Hrun as <-. reflexivity. }
    subst env1.
    unfold Release.insert_changes, mbind, Release.Script_bind,
      Release.read_text, Release.item.
    rewrite Hfile, Hline. cbn. rewrite Hstart. reflexivity.
  - rewrite (insert_changes_run host version text line env Hfile Hline Hstart)
      in Hrun.
    injection Hrun as <-.
    unfold Release.insert_changes, mbind, Release.Script_bind,
      Release.read_text, Release.item. cbn [Release.files].
    rewrite lookup_insert_eq.
    rewrite template_lines;
      [|apply heading_free; assumption | apply free_of_times; reflexivity].
    cbn [app lookup list_lookup]. cbn.
    unfold Release.startswith. rewrite prefix_append. reflexivity.
Qed.

Lemma insert_changes_idempotent_witness :
  Release.insert_changes Release.example_host "0.8.0"
    (snd (Release.insert_changes Release.example_host "0.8.0" Release.example_env))
  = (Release.Return tt,
     snd (Release.insert_changes Release.example_host "0.8.0" Release.example_env)).
Proof.
  exact (insert_changes_idempotent Release.example_host Release.example_host
           "0.8.0" Release.example_env
           (snd (Release.insert_changes Release.example_host "0.8.0"
                   Release.example_env))
           eq_refl eq_refl eq_refl).
Defined.

(** X14. [insert_changes] reads line four of [CHANGES.rst] without a check:
    on a file of fewer than four lines it raises [IndexError], on a missing
    file [FileNotFoundError], in both cases before anything is written. *)
Theorem insert_changes_needs_four_lines
    (host : Release.Host) (version : string) (env : Release.Env) :
  (Release.files env !! "CHANGES.rst" = None ->
   Release.insert_changes host version env
   = (Release.Throw Release.FileNotFoundError, env)) /\
  (forall text,
      Release.files env !! "CHANGES.rst" = Some text ->
      (length (Release.split Release.LF text) < 4)%nat ->
      Release.insert_changes host version env
      = (Release.Throw Release.IndexError, env)).
Proof.
  split.
  - intros Hfile.
    unfold Release.insert_changes, mbind, Release.Script_bind, Release.read_text.
    rewrite Hfile. reflexivity.
  - intros text Hfile Hlen.
    unfold Release.insert_changes, mbind, Release.Script_bind, Release.read_text,
      Release.item.
    rewrite Hfile. rewrite (lookup_ge_None_2 _ 3%nat) by lia. reflexivity.
Qed.

(** X15. An entry that [insert_changes] has just written never passes
    [verify_changes], for whatever version: the placeholders are still
    there, so the check bails out with exit status 1 (on the missing version
    or on the placeholders) and logs one error; the files stay as written. *)
Theorem verify_changes_rejects_fresh_entry
    (host : Release.Host) (version version' text line : string)
    (env : Release.Env) :
  Release.files env !! "CHANGES.rst" = Some text ->
  Release.split Release.LF text !! 3%nat = Some line ->
  Release.startswith line version = false ->
  exists env1 env2,
    Release.insert_changes host version env = (Release.Return tt, env1) /\
    Release.verify_changes version' env1
    = (Release.Throw (Release.SystemExit 1), env2) /\
    Release.files env2 = Release.files env1 /\
    Release.commands env2 = Release.commands env /\
    length (Release.errors env2) = S (length (Release.errors env)).
Proof.
  intros Hfile Hline Hstart.
  assert (Hrm : forall h u rest,
             Release.contains "REMOVE ME"
               (Release.CHANGES_TEMPLATE h u +++ rest) = true).
  { intros h u rest. unfold Release.CHANGES_TEMPLATE.
    repeat rewrite <- append_assoc.
    repeat first [apply contains_here | apply contains_skip]. }
  rewrite (insert_changes_run host version text line env Hfile Hline Hstart).
  match goal with
  | |- exists env1 env2, (_, ?e) = (_, env1) /\ _ =>
      exists e, (snd (Release.verify_changes version' e))
  end.
  split; [reflexivity|].
  unfold Release.verify_changes, mbind, Release.Script_bind, Release.read_text,
    Release.bail.
  cbn [Release.files]. rewrite lookup_insert_eq.
  destruct (Release.contains version' _) eqn:Hin; cbn.
  - rewrite Hrm. cbn. rewrite length_app. cbn. repeat split; lia.
  - rewrite length_app. cbn. repeat split; lia.
Qed.

Lemma verify_changes_rejects_fresh_entry_witness :
  exists env1 env2,
    Release.insert_changes Release.example_host "0.8.0" Release.example_env
    = (Release.Return tt, env1) /\
    Release.verify_changes "0.8.0" env1
    = (Release.Throw (Release.SystemExit 1), env2) /\
    Release.files env2 = Release.files env1 /\
    Release.commands env2 = [] /\
    length (Release.errors env2) = 1%nat.
Proof.
  exact (verify_changes_rejects_fresh_entry Release.example_host "0.8.0" "0.8.0"
           Release.example_changes "0.7.0 (2020-01-01)" Release.example_env
           eq_refl eq_refl eq_refl).
Defined.

(** ** [update_version] *)

(** X16. [update_version] takes the first three dot-separated components
    of the version.  With fewer than three it raises [IndexError] after the
    substitutions for the components that exist were computed but before
    anything is written, so [pyatv/const.py] is left as it was; with three or
    more the file is rewritten once, with the substitutions for MAJOR, MINOR
    and PATCH applied in this order, and further components are ignored. *)
Theorem update_version_needs_three_components
    (host : Release.Host) (version text : string) (env : Release.Env) :
  Release.files env !! "pyatv/const.py" = Some text ->
  Release.update_version host version env
  = match Release.split Release.DOT version with
    | major :: minor :: patch :: _ =>
        (Release.Return tt,
         {| Release.files :=
              <["pyatv/const.py" :=
                  Release.re_sub host "(PATCH_VERSION =).*" ("\1 '" +++ patch +++ "'")
                    (Release.re_sub host "(MINOR_VERSION =).*" ("\1 '" +++ minor +++ "'")
                       (Release.re_sub host "(MAJOR_VERSION =).*"
                          ("\1 '" +++ major +++ "'") text))]>
                (Release.files env);
            Release.commands := Release.commands env;
            Release.errors := Release.errors env |})
    | _ => (Release.Throw Release.IndexError, env)
    end.
Proof.
  intros Hfile.
  unfold Release.update_version, mbind, Release.Script_bind, Release.read_text.
  rewrite Hfile.
  destruct (Release.split Release.DOT version) as [|major [|minor [|patch rest]]];
    reflexivity.
Qed.

Lemma update_version_needs_three_components_witness :
  Release.update_version Release.example_host "1.0" Release.example_env
  = (Release.Throw Release.IndexError, Release.example_env).
Proof.
  exact (update_version_needs_three_components Release.example_host "1.0"
           "MAJOR_VERSION = '0'" Release.example_env eq_refl).
Defined.

(** ** [verify_and_create_commit] *)

Lemma commit_command_not_log (version : string) :
  Release.commit_command version <> "git --no-pager log -10".
Proof. unfold Release.commit_command. rewrite !append_cons. discriminate. Qed.

Lemma commit_command_not_status (version : string) :
  Release.commit_command version <> "git status".
Proof. unfold Release.commit_command. rewrite !append_cons. discriminate. Qed.

(** X17. The release commit is attempted exactly when the last ten log
    entries do not mention the version and [git status] reports staged
    changes; in every other case the function ends before [git commit] is
    run.  It never changes a file itself. *)
Theorem commit_only_after_checks
    (host : Release.Host) (version : string) (env : Release.Env) :
  exists new,
    Release.commands (snd (Release.verify_and_create_commit host version env))
    = Release.commands env ++ new /\
    (Release.commit_command version ∈ new
     <-> exists log status,
         Release.shell host "git --no-pager log -10" = Some log /\
         Release.contains version log = false /\
         Release.shell host "git status" = Some status /\
         Release.contains "Changes to be committed:" status = true) /\
    Release.files (snd (Release.verify_and_create_commit host version env))
    = Release.files env.
Proof.
  unfold Release.verify_and_create_commit, mbind, Release.Script_bind,
    Release.call, Release.bail.
  fold (Release.commit_command version).
  pose proof (commit_command_not_log version) as Hnl.
  pose proof (commit_command_not_status version) as Hns.
  destruct (Release.shell host "git --no-pager log -10") as [log|] eqn:Hlog; cbn.
  2: { exists ["git --no-pager log -10"]. split; [reflexivity|]. split; [|reflexivity].
       split; [|intros (? & ? & [=] & _)].
       intros Hin. apply list_elem_of_singleton in Hin. contradiction. }
  destruct (Release.contains version log) eqn:Hv; cbn.
  { exists ["git --no-pager log -10"]. split; [reflexivity|]. split; [|reflexivity].
    split; [|intros (? & ? & [= <-] & ? & _); congruence].
    intros Hin. apply list_elem_of_singleton in Hin. contradiction. }
  destruct (Release.shell host "git status") as [status|] eqn:Hst; cbn.
  2: { exists ["git --no-pager log -10"; "git status"].
       split; [rewrite <- app_assoc; reflexivity|]. split; [|reflexivity].
       split; [|intros (? & ? & _ & _ & [=] & _)].
       intros Hin. repeat (apply elem_of_cons in Hin as [Hin|Hin]; try contradiction).
       inversion Hin. }
  destruct (Release.contains "Changes to be committed:" status) eqn:Hc; cbn.
  2: { exists ["git --no-pager log -10"; "git status"].
       split; [rewrite <- app_assoc; reflexivity|]. split; [|reflexivity].
       split; [|intros (? & ? & _ & _ & [= <-] & ?); congruence].
       intros Hin. repeat (apply elem_of_cons in Hin as [Hin|Hin]; try contradiction).
       inversion Hin. }
  assert (Hyes : exists log0 status0,
             Some log = Some log0 /\ Release.contains version log0 = false /\
             Some status = Some status0 /\
             Release.contains "Changes to be committed:" status0 = true)
    by (exists log, status; repeat split; assumption).
  destruct (Release.shell host (Release.commit_command version)) as [out|]; cbn.
  2: { exists ["git --no-pager log -10"; "git status"; Release.commit_command version].
       split; [rewrite <- !app_assoc; reflexivity|]. split; [|reflexivity].
       split; [intros _; exact Hyes | intros _; do 2 (apply elem_of_cons; right); apply elem_of_cons; left; reflexivity]. }
  destruct (Release.shell host "git --no-pager show") as [content|]; cbn.
  2: { exists ["git --no-pager log -10"; "git status"; Release.commit_command version;
               "git --no-pager show"].
       split; [rewrite <- !app_assoc; reflexivity|]. split; [|reflexivity].
       split; [intros _; exact Hyes | intros _; do 2 (apply elem_of_cons; right); apply elem_of_cons; left; reflexivity]. }
  exists ["git --no-pager log -10"; "git status"; Release.commit_command version;
          "git --no-pager show"].
  destruct (Release.contains ("+++ b/" +++ "CHANGES.rst") content); cbn;
    [destruct (Release.contains ("+++ b/" +++ "pyatv/const.py") content); cbn|].
  all: split; [rewrite <- !app_assoc; reflexivity|]; split; [|reflexivity].
  all: split; [intros _; exact Hyes | intros _; do 2 (apply elem_of_cons; right); apply elem_of_cons; left; reflexivity].
Qed.

(** X18. The check that the commit holds [CHANGES.rst] and
    [pyatv/const.py] comes after [git commit]: when [git show] lacks one of
    the two, the function bails out with exit status 1 and one logged error,
    and the commit has already been made. *)
Theorem commit_is_checked_after_it_is_made
    (host : Release.Host) (version log status out content : string)
    (env : Release.Env) :
  Release.shell host "git --no-pager log -10" = Some log ->
  Release.contains version log = false ->
  Release.shell host "git status" = Some status ->
  Release.contains "Changes to be committed:" status = true ->
  Release.shell host (Release.commit_command version) = Some out ->
  Release.shell host "git --no-pager show" = Some content ->
  Release.contains "+++ b/CHANGES.rst" content
  && Release.contains "+++ b/pyatv/const.py" content = false ->
  exists filename,
    Release.verify_and_create_commit host version env
    = (Release.Throw (Release.SystemExit 1),
       {| Release.files := Release.files env;
          Release.commands :=
            Release.commands env
            ++ ["git --no-pager log -10"; "git status";
                Release.commit_command version; "git --no-pager show"];
          Release.errors :=
            Release.errors env ++ [("Missing file {0} in commit", [filename])] |}) /\
    (filename = "CHANGES.rst" \/ filename = "pyatv/const.py").
Proof.
  intros Hlog Hv Hst Hc Hcommit Hshow Hmissing.
  unfold Release.verify_and_create_commit, mbind, Release.Script_bind,
    Release.call, Release.bail.
  fold (Release.commit_command version).
  rewrite Hlog. cbn. rewrite Hv. cbn. rewrite Hst. cbn. rewrite Hc. cbn.
  rewrite Hcommit. cbn. rewrite Hshow. cbn.
  change ("+++ b/" +++ "CHANGES.rst") with "+++ b/CHANGES.rst".
  change ("+++ b/" +++ "pyatv/const.py") with "+++ b/pyatv/const.py".
  destruct (Release.contains "+++ b/CHANGES.rst" content); cbn in *.
  - rewrite Hmissing. cbn. exists "pyatv/const.py".
    rewrite <- !app_assoc. split; [reflexivity | right; reflexivity].
  - exists "CHANGES.rst".
    rewrite <- !app_assoc. split; [reflexivity | left; reflexivity].
Qed.

Lemma commit_is_checked_after_it_is_made_witness :
  exists filename,
    Release.verify_and_create_commit Release.example_host "0.8.0" Release.example_env
    = (Release.Throw (Release.SystemExit 1),
       {| Release.files := Release.files Release.example_env;
          Release.commands :=
            [] ++ ["git --no-pager log -10"; "git status";
                   Release.commit_command "0.8.0"; "git --no-pager show"];
          Release.errors := [] ++ [("Missing file {0} in commit", [filename])] |}) /\
    (filename = "CHANGES.rst" \/ filename = "pyatv/const.py").
Proof.
  exact (commit_is_checked_after_it_is_made Release.example_host "0.8.0"
           "Release 0.7.0" "Changes to be committed:" "" "+++ b/CHANGES.rst"
           Release.example_env eq_refl eq_refl eq_refl eq_refl eq_refl eq_refl
           eq_refl).
Defined.

(** ** [main]: what a run can and cannot do *)

Section Frames.
Context (host : Release.Host).

Lemma keeps_commands_bind {A B} (m : Release.Script A) (f : A -> Release.Script B) :
  Release.keeps_commands m -> (forall a, Release.keeps_commands (f a)) ->
  Release.keeps_commands (m ≫= f).
Proof.
  intros Hm Hf env. unfold mbind, Release.Script_bind.
  specialize (Hm env). destruct (m env) as [[a|x] env1]; cbn in *; [|exact Hm].
  rewrite (Hf a env1). exact Hm.
Qed.

Lemma never_unimplemented_bind {A B} (m : Release.Script A)
    (f : A -> Release.Script B) :
  Release.never_unimplemented m ->
  (forall a, Release.never_unimplemented (f a)) ->
  Release.never_unimplemented (m ≫= f).
Proof.
  intros Hm Hf env. unfold mbind, Release.Script_bind.
  specialize (Hm env). destruct (m env) as [[a|x] env1]; cbn in *.
  - apply Hf.
  - intros [= ->]. apply Hm. reflexivity.
Qed.

Lemma keeps_commands_ret {A} (a : A) :
  Release.keeps_commands (mret a : Release.Script A).
Proof. intros env. reflexivity. Qed.

Lemma never_unimplemented_ret {A} (a : A) :
  Release.never_unimplemented (mret a : Release.Script A).
Proof. intros env. discriminate. Qed.

Lemma keeps_commands_bail {A} (message : string) (args : list string) :
  Release.keeps_commands (@Release.bail A message args).
Proof. intros env. reflexivity. Qed.

Lemma never_unimplemented_bail {A} (message : string) (args : list string) :
  Release.never_unimplemented (@Release.bail A message args).
Proof. intros env. discriminate. Qed.

Lemma never_unimplemented_call (cmd : string) :
  Release.never_unimplemented (Release.call host cmd).
Proof.
  intros env. unfold Release.call. destruct (Release.shell host cmd); discriminate.
Qed.

Lemma keeps_commands_read_text (path : string) :
  Release.keeps_commands (Release.read_text path).
Proof.
  intros env. unfold Release.read_text. destruct (_ !! _); reflexivity.
Qed.

Lemma never_unimplemented_read_text (path : string) :
  Release.never_unimplemented (Release.read_text path).
Proof.
  intros env. unfold Release.read_text. destruct (_ !! _); discriminate.
Qed.

Lemma keeps_commands_item {A} (items : list A) (i : nat) :
  Release.keeps_commands (Release.item items i).
Proof. intros env. unfold Release.item. destruct (_ !! _); reflexivity. Qed.

Lemma never_unimplemented_item {A} (items : list A) (i : nat) :
  Release.never_unimplemented (Release.item items i).
Proof. intros env. unfold Release.item. destruct (_ !! _); discriminate. Qed.

Lemma keeps_commands_write_text (path text : string) :
  Release.keeps_commands (Release.write_text path text).
Proof. intros env. reflexivity. Qed.

Lemma never_unimplemented_write_text (path text : string) :
  Release.never_unimplemented (Release.write_text path text).
Proof. intros env. discriminate. Qed.

Lemma keeps_commands_sanity_check :
  Release.keeps_commands (Release.sanity_check host).
Proof.
  unfold Release.sanity_check. apply keeps_commands_bind.
  - destruct (negb _); [apply keeps_commands_bail | apply keeps_commands_ret].
  - intros _. destruct (negb _); [apply keeps_commands_bail | apply keeps_commands_ret].
Qed.

Lemma never_unimplemented_sanity_check :
  Release.never_unimplemented (Release.sanity_check host).
Proof.
  unfold Release.sanity_check. apply never_unimplemented_bind.
  - destruct (negb _); [apply never_unimplemented_bail | apply never_unimplemented_ret].
  - intros _.
    destruct (negb _); [apply never_unimplemented_bail | apply never_unimplemented_ret].
Qed.

Lemma never_unimplemented_install_dependencies :
  Release.never_unimplemented (Release.install_dependencies host).
Proof.
  unfold Release.install_dependencies.
  repeat (apply never_unimplemented_bind;
          [apply never_unimplemented_call | intros _]).
  apply never_unimplemented_ret.
Qed.

Lemma keeps_commands_update_components (splitted : list string)
    (components : list (nat * string)) (output : string) :
  Release.keeps_commands (Release.update_components host splitted components output).
Proof.
  revert output. induction components as [|[i component] others IH];
    intros output; cbn [Release.update_components].
  - apply keeps_commands_ret.
  - apply keeps_commands_bind; [apply keeps_commands_item|]. intros value. apply IH.
Qed.

Lemma never_unimplemented_update_components (splitted : list string)
    (components : list (nat * string)) (output : string) :
  Release.never_unimplemented
    (Release.update_components host splitted components output).
Proof.
  revert output. induction components as [|[i component] others IH];
    intros output; cbn [Release.update_components].
  - apply never_unimplemented_ret.
  - apply never_unimplemented_bind; [apply never_unimplemented_item|].
    intros value. apply IH.
Qed.

Lemma keeps_commands_update_version (version : string) :
  Release.keeps_commands (Release.update_version host version).
Proof.
  unfold Release.update_version.
  apply keeps_commands_bind; [apply keeps_commands_read_text|]. intros output.
  apply keeps_commands_bind; [apply keeps_commands_update_components|].
  intros output'. apply keeps_commands_write_text.
Qed.

Lemma never_unimplemented_update_version (version : string) :
  Release.never_unimplemented (Release.update_version host version).
Proof.
  unfold Release.update_version.
  apply never_unimplemented_bind; [apply never_unimplemented_read_text|].
  intros output.
  apply never_unimplemented_bind; [apply never_unimplemented_update_components|].
  intros output'. apply never_unimplemented_write_text.
Qed.

Lemma keeps_commands_insert_changes (version : string) :
  Release.keeps_commands (Release.insert_changes host version).
Proof.
  unfold Release.insert_changes.
  apply keeps_commands_bind; [apply keeps_commands_read_text|]. intros text.
  apply keeps_commands_bind; [apply keeps_commands_item|]. intros line.
  destruct (Release.startswith line version);
    [apply keeps_commands_ret | apply keeps_commands_write_text].
Qed.

Lemma never_unimplemented_insert_changes (version : string) :
  Release.never_unimplemented (Release.insert_changes host version).
Proof.
  unfold Release.insert_changes.
  apply never_unimplemented_bind; [apply never_unimplemented_read_text|].
  intros text.
  apply never_unimplemented_bind; [apply never_unimplemented_item|]. intros line.
  destruct (Release.startswith line version);
    [apply never_unimplemented_ret | apply never_unimplemented_write_text].
Qed.

Lemma never_unimplemented_verify_changes (version : string) :
  Release.never_unimplemented (Release.verify_changes version).
Proof.
  unfold Release.verify_changes.
  apply never_unimplemented_bind; [apply never_unimplemented_read_text|].
  intros changes. apply never_unimplemented_bind.
  - destruct (negb _); [apply never_unimplemented_bail | apply never_unimplemented_ret].
  - intros _. destruct (Release.contains _ _);
      [apply never_unimplemented_bail | apply never_unimplemented_ret].
Qed.

Lemma never_unimplemented_check_expected_files (expected : list string)
    (content : string) :
  Release.never_unimplemented (Release.check_expected_files expected content).
Proof.
  induction expected as [|filename others IH]; cbn [Release.check_expected_files].
  - apply never_unimplemented_ret.
  - apply never_unimplemented_bind; [|intros _; exact IH].
    destruct (negb _); [apply never_unimplemented_bail | apply never_unimplemented_ret].
Qed.

Lemma never_unimplemented_verify_and_create_commit (version : string) :
  Release.never_unimplemented (Release.verify_and_create_commit host version).
Proof.
  unfold Release.verify_and_create_commit.
  apply never_unimplemented_bind; [apply never_unimplemented_call|]. intros log.
  apply never_unimplemented_bind;
    [destruct (Release.contains _ _);
     [apply never_unimplemented_bail | apply never_unimplemented_ret]|].
  intros _. apply never_unimplemented_bind; [apply never_unimplemented_call|].
  intros status.
  apply never_unimplemented_bind;
    [destruct (negb _); [apply never_unimplemented_bail | apply never_unimplemented_ret]|].
  intros _. apply never_unimplemented_bind; [apply never_unimplemented_call|].
  intros _. apply never_unimplemented_bind; [apply never_unimplemented_call|].
  intros content. apply never_unimplemented_check_expected_files.
Qed.

Lemma never_unimplemented_outputs :
  Release.never_unimplemented
    (Release.verify_dist_step host;; Release.generate_outputs host).
Proof.
  apply never_unimplemented_bind.
  - unfold Release.verify_dist_step. destruct (Release.verify_dist host);
      [apply never_unimplemented_ret | apply never_unimplemented_bail
      | intros env; discriminate].
  - intros _. unfold Release.generate_outputs.
    apply never_unimplemented_bind;
      [apply never_unimplemented_call | intros _; apply never_unimplemented_ret].
Qed.

Lemma keeps_commands_unless (skip : bool) (step : Release.Script unit) :
  Release.keeps_commands step -> Release.keeps_commands (Release.unless skip step).
Proof. intros H. destruct skip; [apply keeps_commands_ret | exact H]. Qed.

Lemma never_unimplemented_unless (skip : bool) (step : Release.Script unit) :
  Release.never_unimplemented step ->
  Release.never_unimplemented (Release.unless skip step).
Proof. intros H. destruct skip; [apply never_unimplemented_ret | exact H]. Qed.

Lemma keeps_commands_verify_changes (version : string) :
  Release.keeps_commands (Release.verify_changes version).
Proof.
  unfold Release.verify_changes.
  apply keeps_commands_bind; [apply keeps_commands_read_text|]. intros changes.
  apply keeps_commands_bind.
  - destruct (negb _); [apply keeps_commands_bail | apply keeps_commands_ret].
  - intros _. destruct (Release.contains _ _);
      [apply keeps_commands_bail | apply keeps_commands_ret].
Qed.

Lemma keeps_commands_check_expected_files (expected : list string)
    (content : string) :
  Release.keeps_commands (Release.check_expected_files expected content).
Proof.
  induction expected as [|filename others IH]; cbn [Release.check_expected_files].
  - apply keeps_commands_ret.
  - apply keeps_commands_bind; [|intros _; exact IH].
    destruct (negb _); [apply keeps_commands_bail | apply keeps_commands_ret].
Qed.

Lemma keeps_commands_verify_dist_step :
  Release.keeps_commands (Release.verify_dist_step host).
Proof.
  unfold Release.verify_dist_step. destruct (Release.verify_dist host);
    [apply keeps_commands_ret | apply keeps_commands_bail | intros env; reflexivity].
Qed.

Lemma runs_only_keeps {A} (allowed : list string) (m : Release.Script A) :
  Release.keeps_commands m -> Release.runs_only allowed m.
Proof.
  intros Hm env. exists []. rewrite app_nil_r. split; [apply Hm|].
  intros cmd Hin. apply elem_of_nil in Hin. contradiction.
Qed.

Lemma runs_only_bind {A B} (allowed : list string)
    (m : Release.Script A) (f : A -> Release.Script B) :
  Release.runs_only allowed m -> (forall a, Release.runs_only allowed (f a)) ->
  Release.runs_only allowed (m ≫= f).
Proof.
  intros Hm Hf env. unfold mbind, Release.Script_bind.
  destruct (Hm env) as (new1 & Heq1 & Hin1).
  destruct (m env) as [[a|x] env1]; cbn [snd] in *; [|exists new1; auto].
  destruct (Hf a env1) as (new2 & Heq2 & Hin2).
  exists (new1 ++ new2). rewrite Heq2, Heq1, <- app_assoc. split; [reflexivity|].
  intros cmd Hin. apply elem_of_app in Hin as [Hin|Hin]; auto.
Qed.

Lemma runs_only_call (allowed : list string) (cmd : string) :
  cmd ∈ allowed -> Release.runs_only allowed (Release.call host cmd).
Proof.
  intros Hcmd env. exists [cmd]. split.
  - unfold Release.call. destruct (Release.shell host cmd); reflexivity.
  - intros cmd' Hin. apply list_elem_of_singleton in Hin. subst cmd'. exact Hcmd.
Qed.

Lemma runs_only_unless (allowed : list string) (skip : bool)
    (step : Release.Script unit) :
  Release.runs_only allowed step ->
  Release.runs_only allowed (Release.unless skip step).
Proof.
  intros H. destruct skip; [apply runs_only_keeps, keeps_commands_ret | exact H].
Qed.

Lemma runs_only_verify_and_create_commit (version : string) :
  Release.runs_only (Release.release_commands version)
    (Release.verify_and_create_commit host version).
Proof.
  unfold Release.verify_and_create_commit, Release.release_commands.
  apply runs_only_bind;
    [apply runs_only_call; apply list_elem_of_here|]. intros log.
  apply runs_only_bind;
    [apply runs_only_keeps; destruct (Release.contains _ _);
     [apply keeps_commands_bail | apply keeps_commands_ret]|].
  intros _. apply runs_only_bind;
    [apply runs_only_call; apply list_elem_of_further, list_elem_of_here|].
  intros status.
  apply runs_only_bind;
    [apply runs_only_keeps; destruct (negb _);
     [apply keeps_commands_bail | apply keeps_commands_ret]|].
  intros _. apply runs_only_bind;
    [apply runs_only_call;
     do 2 apply list_elem_of_further; apply list_elem_of_here|].
  intros _. apply runs_only_bind;
    [apply runs_only_call;
     do 3 apply list_elem_of_further; apply list_elem_of_here|].
  intros content. apply runs_only_keeps, keeps_commands_check_expected_files.
Qed.

Lemma runs_only_outputs (version : string) :
  Release.runs_only (Release.release_commands version)
    (Release.verify_dist_step host;; Release.generate_outputs host).
Proof.
  apply runs_only_bind;
    [apply runs_only_keeps, keeps_commands_verify_dist_step|].
  intros _. unfold Release.generate_outputs, Release.release_commands.
  apply runs_only_bind;
    [apply runs_only_call; do 4 apply list_elem_of_further; apply list_elem_of_here|].
  intros _. apply runs_only_keeps, keeps_commands_ret.
Qed.

End Frames.

(** None of the release commands installs a package. *)
Lemma release_commands_install_nothing (version cmd : string) :
  cmd ∈ Release.release_commands version ->
  cmd ∉ ["pip3 install wheel"; "pip3 install twine"].
Proof.
  unfold Release.release_commands, Release.commit_command. intros Hcmd Hpip.
  repeat (apply elem_of_cons in Hcmd as [Hcmd|Hcmd]);
    [| | | | |apply elem_of_nil in Hcmd; contradiction]; subst cmd;
    repeat (apply elem_of_cons in Hpip as [Hpip|Hpip]; [vm_compute in Hpip; discriminate|]);
    apply elem_of_nil in Hpip; contradiction.
Qed.

(** X19. [--skip-tag] is declared with [default=True] and
    [action="store_true"], so the flag is true whether or not the option is
    given: no run of [main] reaches [create_tag], and [main] never ends in
    its [NotImplementedError], for a release or a pre-release version. *)
Theorem main_never_creates_tag
    (host : Release.Host) (cl : Release.CommandLine) (env : Release.Env) :
  (forall args env', Release.parse_args cl env = (Release.Return args, env') ->
                     Release.skip_tag args = true) /\
  fst (Release.main host cl env) <> Release.Throw Release.NotImplementedError.
Proof.
  split.
  - intros args env'. unfold Release.parse_args.
    destruct (_ && _); [discriminate|]. destruct (negb _); [discriminate|].
    intros [= <- _]. cbn. destruct (Release.given_skip_tag cl); reflexivity.
  - revert env. change (Release.never_unimplemented (Release.main host cl)).
    unfold Release.main, Release.parse_args.
    destruct (_ && _); [intros env; discriminate|].
    destruct (negb _); [intros env; discriminate|].
    match goal with
    | |- Release.never_unimplemented (mret ?a ≫= ?k) =>
        change (Release.never_unimplemented (k a))
    end.
    cbn beta iota delta [Release.version Release.skip_tag Release.skip_outputs
                           Release.skip_commit Release.skip_verify_changes
                           Release.skip_changes Release.skip_update_version
                           Release.skip_dependencies Release.prepare_release
                           Release.make_release].
    destruct (Release.normalize host _) as [version|];
      [|apply never_unimplemented_ret].
    apply never_unimplemented_bind; [apply never_unimplemented_sanity_check|].
    intros _. apply never_unimplemented_bind; [|intros _; apply never_unimplemented_ret].
    destruct (Release.store_true false (Release.given_p cl)).
    + apply never_unimplemented_bind;
        [apply never_unimplemented_unless, never_unimplemented_install_dependencies|].
      intros _. apply never_unimplemented_bind;
        [apply never_unimplemented_unless, never_unimplemented_update_version|].
      intros _. apply never_unimplemented_unless, never_unimplemented_insert_changes.
    + destruct (Release.store_true false (Release.given_m cl));
        [|apply never_unimplemented_ret].
      apply never_unimplemented_bind;
        [apply never_unimplemented_unless, never_unimplemented_verify_changes|].
      intros _. apply never_unimplemented_bind;
        [apply never_unimplemented_unless,
           never_unimplemented_verify_and_create_commit|].
      intros _. apply never_unimplemented_bind;
        [apply never_unimplemented_unless, never_unimplemented_outputs|].
      intros _. unfold Release.store_true.
      destruct (Release.given_skip_tag cl); apply never_unimplemented_ret.
Qed.

(** X20. [main] acts only on an accepted command line and a valid
    version: with both or neither of [-p] and [-m] the parser exits with
    status 2, and with a version the parser of versions rejects [main]
    returns 1; in both cases no check is made, no command is run and no file
    is touched. *)
Theorem main_rejects_before_acting
    (host : Release.Host) (cl : Release.CommandLine) (env : Release.Env) :
  (Release.given_p cl = Release.given_m cl ->
   Release.main host cl env = (Release.Throw (Release.SystemExit 2), env)) /\
  (Release.given_p cl <> Release.given_m cl ->
   Release.normalize host (Release.given_version cl) = None ->
   Release.main host cl env = (Release.Return 1, env)).
Proof.
  unfold Release.main, Release.parse_args, mbind, Release.Script_bind. split.
  - intros Heq. rewrite Heq. destruct (Release.given_m cl); reflexivity.
  - intros Hne Hbad.
    destruct (Release.given_p cl), (Release.given_m cl); try congruence;
      cbn; rewrite Hbad; reflexivity.
Qed.

(** X21. The two modes do not overlap in the commands they run.  A run with
    [-p] executes no command but the two [pip3 install] calls, in order and
    at most once each, so it never commits; a run with [-m] executes only
    the four [git] commands of the commit step and the [setup.py] build,
    with the commit message naming the normalised version, so it never
    installs a package. *)
Theorem main_modes_are_separate
    (host : Release.Host) (cl : Release.CommandLine) (env : Release.Env) :
  (Release.given_p cl = true -> Release.given_m cl = false ->
   exists new,
     Release.commands (snd (Release.main host cl env))
     = Release.commands env ++ new /\
     (new = [] \/ new = ["pip3 install wheel"]
      \/ new = ["pip3 install wheel"; "pip3 install twine"])) /\
  (Release.given_m cl = true -> Release.given_p cl = false ->
   exists new,
     Release.commands (snd (Release.main host cl env))
     = Release.commands env ++ new /\
     (forall cmd, cmd ∈ new ->
        (cmd ∉ ["pip3 install wheel"; "pip3 install twine"]) /\
        exists version,
          Release.normalize host (Release.given_version cl) = Some version /\
          cmd ∈ Release.release_commands version)).
Proof.
  split.
  - intros Hp Hm. unfold Release.main, Release.parse_args. rewrite Hp, Hm.
    cbn [andb orb negb].
    match goal with
    | |- context [(mret ?a ≫= ?k) env] => change ((mret a ≫= k) env) with (k a env)
    end.
    cbn beta iota delta [Release.version Release.skip_tag Release.skip_outputs
                           Release.skip_commit Release.skip_verify_changes
                           Release.skip_changes Release.skip_update_version
                           Release.skip_dependencies Release.prepare_release
                           Release.make_release Release.store_true].
    destruct (Release.normalize host _) as [version|];
      [|exists []; rewrite app_nil_r; split; [reflexivity | left; reflexivity]].
    unfold mbind at 1, Release.Script_bind at 1.
    pose proof (keeps_commands_sanity_check host env) as Hsanity.
    destruct (Release.sanity_check host env) as [[[]|x] env1]; cbn [snd] in Hsanity;
      [|exists []; rewrite app_nil_r; split; [exact Hsanity | left; reflexivity]].
    rewrite <- Hsanity.
    unfold mbind at 1, Release.Script_bind at 1.
    unfold mbind at 1, Release.Script_bind at 1.
    assert (Hinstall :
              exists new,
                Release.commands
                  (snd (Release.unless
                          (if Release.given_skip_dependencies cl then true else false)
                          (Release.install_dependencies host) env1))
                = Release.commands env1 ++ new /\
                (new = [] \/ new = ["pip3 install wheel"]
                 \/ new = ["pip3 install wheel"; "pip3 install twine"])).
    { destruct (Release.given_skip_dependencies cl); cbn.
      - exists []. rewrite app_nil_r. split; [reflexivity | left; reflexivity].
      - unfold Release.install_dependencies, mbind, Release.Script_bind, Release.call.
        change ("pip3 install " +++ "wheel") with "pip3 install wheel".
        change ("pip3 install " +++ "twine") with "pip3 install twine".
        destruct (Release.shell host "pip3 install wheel"); cbn;
          [destruct (Release.shell host "pip3 install twine"); cbn|].
        1,2: exists ["pip3 install wheel"; "pip3 install twine"];
          rewrite <- app_assoc; split; [reflexivity | right; right; reflexivity].
        exists ["pip3 install wheel"]. split; [reflexivity | right; left; reflexivity]. }
    destruct Hinstall as (new & Hnew & Hcases).
    destruct (Release.unless _ (Release.install_dependencies host) env1)
      as [[[]|x] env2]; cbn [snd] in Hnew;
      [|exists new; split; [exact Hnew | exact Hcases]].
    exists new. split; [|exact Hcases]. rewrite <- Hnew.
    pose proof (keeps_commands_unless
                  (if Release.given_skip_update_version cl then true else false) _
                  (keeps_commands_update_version host version) env2) as Hupd.
    unfold mbind at 1, Release.Script_bind at 1.
    destruct (Release.unless _ (Release.update_version host version) env2)
      as [[[]|x] env3]; cbn [snd] in Hupd; [|exact Hupd].
    rewrite <- Hupd.
    pose proof (keeps_commands_unless
                  (if Release.given_skip_changes cl then true else false) _
                  (keeps_commands_insert_changes host version) env3) as Hins.
    destruct (Release.unless _ (Release.insert_changes host version) env3)
      as [[[]|x] env4]; cbn [snd] in Hins; exact Hins.
  - intros Hm Hp.
    destruct (Release.normalize host (Release.given_version cl)) as [version|]
      eqn:Hversion.
    + assert (Hrun : Release.runs_only (Release.release_commands version)
                       (Release.main host cl)).
      { unfold Release.main, Release.parse_args. rewrite Hp, Hm.
        cbn [andb orb negb].
        match goal with
        | |- Release.runs_only _ (mret ?a ≫= ?k) =>
            change (Release.runs_only (Release.release_commands version) (k a))
        end.
        cbn beta iota delta [Release.version Release.skip_tag Release.skip_outputs
                               Release.skip_commit Release.skip_verify_changes
                               Release.skip_changes Release.skip_update_version
                               Release.skip_dependencies Release.prepare_release
                               Release.make_release Release.store_true].
        rewrite Hversion.
        apply runs_only_bind;
          [apply runs_only_keeps, keeps_commands_sanity_check|]. intros _.
        apply runs_only_bind;
          [|intros _; apply runs_only_keeps, keeps_commands_ret].
        apply runs_only_bind;
          [apply runs_only_unless, runs_only_keeps,
             keeps_commands_verify_changes|]. intros _.
        apply runs_only_bind;
          [apply runs_only_unless, runs_only_verify_and_create_commit|].
        intros _.
        apply runs_only_bind; [apply runs_only_unless, runs_only_outputs|].
        intros _. destruct (Release.given_skip_tag cl);
          apply runs_only_keeps, keeps_commands_ret. }
      destruct (Hrun env) as (new & Hnew & Hin). exists new.
      split; [exact Hnew|]. intros cmd Hcmd. split.
      * apply (release_commands_install_nothing version), Hin, Hcmd.
      * exists version. split; [reflexivity | apply Hin, Hcmd].
    + exists []. rewrite app_nil_r. split.
      * unfold Release.main, Release.parse_args, mbind, Release.Script_bind.
        rewrite Hp, Hm. cbn. rewrite Hversion. reflexivity.
      * intros cmd Hcmd. apply elem_of_nil in Hcmd. contradiction.
Qed.

(** A release run on the example host: the commit step runs its four [git]
    commands and bails, since the commit shown lacks [pyatv/const.py]; the
    build is not reached. *)
Example main_release_run_commands :
  Release.commands
    (snd (Release.main Release.example_host
            {| Release.given_version := "0.7.1";
               Release.given_skip_dependencies := false;
               Release.given_skip_update_version := false;
               Release.given_skip_changes := false;
               Release.given_skip_verify_changes := true;
               Release.given_skip_commit := false;
               Release.given_skip_outputs := false;
               Release.given_skip_tag := false;
               Release.given_p := false;
               Release.given_m := true |}
            Release.example_env))
  = ["git --no-pager log -10"; "git status"; Release.commit_command "0.7.1";
     "git --no-pager show"].
Proof. vm_compute. reflexivity. Qed.
